(** * LockMe: a shallow embedding of [lockme_fixed_gui.py]

    The program pads a file PKCS#7-style, encrypts it with AES in CBC mode
    under a freshly generated key, and writes [IV || ciphertext] next to the
    source file; the decrypt action reverses this with the key stored in
    [key.bin].

    Layout of the development:
    - [Py]: the fragments of the Python runtime the program relies on
      (exceptions, [len], indexing, slicing, [bytes(...)], [str.replace]);
    - [World]: the files and directories, the random source and the
      message boxes, threaded through a state-and-exception monad;
    - [AES]: the cipher library, CBC mode written over an abstract block
      transform ([BlockCipher]);
    - the six functions of the program, under their source names;
    - the properties. *)

From Stdlib Require Import ZArith Lia Bool Strings.Byte Ascii String.
From stdpp Require Import gmap strings list.

Abbreviation bytes := (list byte).

(** ** Python runtime fragments *)

Module Py.

(** The exception classes that the program can raise. *)
Inductive exn : Type :=
| FileNotFoundError
| NotADirectoryError
| ValueError
| IndexError.

Inductive result (A : Type) : Type :=
| Ok (a : A)
| Raise (e : exn).
Arguments Ok {A} a.
Arguments Raise {A} e.

Definition exn_eqb (e1 e2 : exn) : bool :=
  match e1, e2 with
  | FileNotFoundError, FileNotFoundError => true
  | NotADirectoryError, NotADirectoryError => true
  | ValueError, ValueError => true
  | IndexError, IndexError => true
  | _, _ => false
  end.

Definition rbind {A B} (r : result A) (k : A → result B) : result B :=
  match r with
  | Ok a => k a
  | Raise e => Raise e
  end.

(** [len(l)] *)
Definition len {A} (l : list A) : Z := Z.of_nat (length l).

(** The integer value of a byte, as obtained by indexing a [bytes]. *)
Definition int_of_byte (b : byte) : Z := Z.of_N (Byte.to_N b).

(** One element of [bytes(iterable_of_ints)]: [ValueError] outside
    [range(256)]. *)
Definition byte_of_int (z : Z) : result byte :=
  if ((0 <=? z) && (z <? 256))%Z then
    match Byte.of_N (Z.to_N z) with
    | Some b => Ok b
    | None => Raise ValueError
    end
  else Raise ValueError.

(** [bytes(l)] for a list of integers [l]. *)
Fixpoint bytes_of_ints (l : list Z) : result bytes :=
  match l with
  | [] => Ok []
  | z :: l' =>
      rbind (byte_of_int z) (λ b,
      rbind (bytes_of_ints l') (λ bs, Ok (b :: bs)))
  end.

(** [[x] * n]: a non-positive count gives the empty list. *)
Definition repeat_list {A} (x : A) (n : Z) : list A :=
  replicate (Z.to_nat n) x.

(** [l[i]]: a negative index counts from the end; out of range raises
    [IndexError]. *)
Definition getitem {A} (l : list A) (i : Z) : result A :=
  let j := (if i <? 0 then i + len l else i)%Z in
  if ((0 <=? j) && (j <? len l))%Z then
    match l !! Z.to_nat j with
    | Some x => Ok x
    | None => Raise IndexError
    end
  else Raise IndexError.

(** [l[:stop]]: a negative bound counts from the end, and bounds are
    clamped to [0 .. len(l)]; slicing never raises. *)
Definition slice_to {A} (l : list A) (stop : Z) : list A :=
  let n := len l in
  let s := (if stop <? 0 then Z.max (stop + n) 0 else Z.min stop n)%Z in
  take (Z.to_nat s) l.

(** [s[n:]] on strings. *)
Fixpoint str_drop (n : nat) (s : string) : string :=
  match n, s with
  | O, _ => s
  | S n', String _ s' => str_drop n' s'
  | S _, EmptyString => EmptyString
  end.

(** The scan behind [s.replace(old, new)] for a non-empty [old]: at the
    leftmost occurrence emit [new] and continue after the occurrence,
    otherwise copy one character. Every step consumes at least one
    character, so [String.length s] steps are enough. *)
Fixpoint replace_scan (fuel : nat) (old new s : string) : string :=
  match fuel with
  | O => s
  | S fuel' =>
      match s with
      | EmptyString => EmptyString
      | String c s' =>
          if String.prefix old s
          then new +:+ replace_scan fuel' old new (str_drop (String.length old) s)
          else String c (replace_scan fuel' old new s')
      end
  end.

(** With an empty [old], [new] is inserted before every character and at
    the end. *)
Fixpoint replace_empty (new s : string) : string :=
  match s with
  | EmptyString => new
  | String c s' => new +:+ String c (replace_empty new s')
  end.

(** [s.replace(old, new)] *)
Definition str_replace (s old new : string) : string :=
  match old with
  | EmptyString => replace_empty new s
  | String _ _ => replace_scan (String.length s) old new s
  end.

(** Truth value of a string: only the empty string is false. *)
Definition truthy (s : string) : bool :=
  match s with
  | EmptyString => false
  | String _ _ => true
  end.

End Py.
Import Py.

Notation "'let!' x := e 'in' k" := (rbind e (λ x, k))
  (at level 10, x name, e at level 200, k at level 200).

(** ** The world the program runs in *)

Module World.

(** A message box put on screen by [messagebox.showinfo] or
    [messagebox.showerror]. *)
Inductive message : Type :=
| Info (title text : string)
| Error (title text : string).

(** The file system maps the path of a regular file to its contents, and
    [dirs] lists directories; the directories above a file or above a
    listed directory exist too. The random source is an unbounded tape of
    bytes read from [cursor] on; [block_calls] counts the block transforms
    the cipher has run (a ghost counter); [shown] lists the message boxes,
    oldest first. *)
Record world : Type := mkWorld {
  fs : gmap string bytes;
  dirs : gset string;
  entropy : nat → byte;
  cursor : nat;
  block_calls : nat;
  shown : list message
}.

Definition set_fs (f : gmap string bytes → gmap string bytes) (w : world) : world :=
  mkWorld (f (fs w)) (dirs w) (entropy w) (cursor w) (block_calls w) (shown w).
Definition set_cursor (c : nat) (w : world) : world :=
  mkWorld (fs w) (dirs w) (entropy w) c (block_calls w) (shown w).
Definition add_block_calls (n : nat) (w : world) : world :=
  mkWorld (fs w) (dirs w) (entropy w) (cursor w) (block_calls w + n) (shown w).
Definition add_shown (m : message) (w : world) : world :=
  mkWorld (fs w) (dirs w) (entropy w) (cursor w) (block_calls w) (shown w ++ [m]).

(** A computation changes the world and returns or raises; the effects
    made before an exception stay. *)
Definition M (A : Type) : Type := world → result A * world.

Definition ret {A} (a : A) : M A := λ w, (Ok a, w).
Definition raise {A} (e : exn) : M A := λ w, (Raise e, w).
Definition bind {A B} (m : M A) (k : A → M B) : M B :=
  λ w, match m w with
       | (Ok a, w') => k a w'
       | (Raise e, w') => (Raise e, w')
       end.
Definition lift {A} (r : result A) : M A := λ w, (r, w).

(** [try: body except cls: handler] *)
Definition try_except {A} (body : M A) (cls : exn) (handler : M A) : M A :=
  λ w, match body w with
       | (Ok a, w') => (Ok a, w')
       | (Raise e, w') => if exn_eqb e cls then handler w' else (Raise e, w')
       end.

(** [with open(path, 'rb') as f: f.read()] *)
Definition read_file (path : string) : M bytes :=
  λ w, match fs w !! path with
       | Some data => (Ok data, w)
       | None => (Raise FileNotFoundError, w)
       end.

(** The directories above a path, outermost first: the prefixes of the
    path that a [/] follows. A path without [/] has none: it names a file
    of the current directory. *)
Fixpoint dirs_above_from (seen rest : string) : list string :=
  match rest with
  | EmptyString => []
  | String c rest' =>
      (if Ascii.eqb c "/" then [seen] else [])
        ++ dirs_above_from (seen +:+ String c EmptyString) rest'
  end.

Definition dirs_above (path : string) : list string :=
  dirs_above_from EmptyString path.

(** A directory exists when it is listed, or lies above a file or above a
    listed directory; the empty prefix (the root) always exists. *)
Definition dir_exists (w : world) (d : string) : bool :=
  bool_decide (d = EmptyString)
  || bool_decide (d ∈ dirs w)
  || existsb (λ q, bool_decide (d ∈ dirs_above q))
       (elements (dom (fs w) ∪ dirs w)).

(** The path is resolved one directory after the other: the first one that
    does not exist stops it, with [NotADirectoryError] where a regular file
    stands and [FileNotFoundError] where nothing does. *)
Fixpoint resolve (w : world) (ds : list string) : option exn :=
  match ds with
  | [] => None
  | d :: ds' =>
      if dir_exists w d then resolve w ds'
      else Some (if bool_decide (d ∈ dom (fs w))
                 then NotADirectoryError else FileNotFoundError)
  end.

(** What [open(path, 'wb')] raises, if anything. Of the refusals of the
    operating system the missing directory is the one followed here;
    permissions, and a directory standing at the path itself, are not. *)
Definition open_for_writing (w : world) (path : string) : option exn :=
  resolve w (dirs_above path).

(** [with open(path, 'wb') as f: f.write(data)]: creates or truncates the
    file; nothing is written when the file cannot be opened. *)
Definition write_file (path : string) (data : bytes) : M unit :=
  λ w, match open_for_writing w path with
       | Some e => (Raise e, w)
       | None => (Ok tt, set_fs (insert path data) w)
       end.

(** [Crypto.Random.get_random_bytes(n)] *)
Definition get_random_bytes (n : nat) : M bytes :=
  λ w, (Ok (map (entropy w) (seq (cursor w) n)), set_cursor (cursor w + n) w).

Definition showinfo (title text : string) : M unit :=
  λ w, (Ok tt, add_shown (Info title text) w).
Definition showerror (title text : string) : M unit :=
  λ w, (Ok tt, add_shown (Error title text) w).

End World.
Import World.

Notation "'let*' x := e 'in' k" := (bind e (λ x, k))
  (at level 10, x name, e at level 200, k at level 200).

(** ** The cipher library: AES in CBC mode

    [Crypto.Cipher.AES] is a library the program imports, not part of its
    source. What the program uses of it is written out here as the library
    documents it: the key lengths AES is defined for, the block size, the
    argument checks of [AES.new], [encrypt] and [decrypt] (each a
    [ValueError]), and the chaining of CBC mode. The block transform itself
    stays a parameter. *)

Module AES.

Definition block_size : nat := 16.

(** The key lengths AES is defined for: 128, 192 and 256 bits. *)
Definition key_size : list nat := [16; 24; 32].

Definition key_ok (key : bytes) : bool :=
  existsb (Nat.eqb (length key)) key_size.

(** The block transform itself is left abstract: under a key of a valid
    length it permutes the 16-byte blocks. *)
Class BlockCipher : Type := {
  block_encrypt : bytes → bytes → bytes;
  block_decrypt : bytes → bytes → bytes;
  block_encrypt_length : ∀ k b,
    key_ok k = true → length b = block_size →
    length (block_encrypt k b) = block_size;
  block_decrypt_length : ∀ k b,
    key_ok k = true → length b = block_size →
    length (block_decrypt k b) = block_size;
  block_decrypt_encrypt : ∀ k b,
    key_ok k = true → length b = block_size →
    block_decrypt k (block_encrypt k b) = b
}.

Definition xor_bits (x y : bool * (bool * (bool * (bool * (bool * (bool * (bool * bool)))))))
  : bool * (bool * (bool * (bool * (bool * (bool * (bool * bool)))))) :=
  let '(x0, (x1, (x2, (x3, (x4, (x5, (x6, x7))))))) := x in
  let '(y0, (y1, (y2, (y3, (y4, (y5, (y6, y7))))))) := y in
  (xorb x0 y0, (xorb x1 y1, (xorb x2 y2, (xorb x3 y3,
    (xorb x4 y4, (xorb x5 y5, (xorb x6 y6, xorb x7 y7))))))).

Definition xor_byte (a b : byte) : byte :=
  Byte.of_bits (xor_bits (Byte.to_bits a) (Byte.to_bits b)).

Definition xor_block (a b : bytes) : bytes := zip_with xor_byte a b.

(** The cipher object: its key and its [iv] attribute. *)
Record cipher : Type := mkCipher { key : bytes; iv : bytes }.

(** CBC over [n] blocks: every plaintext block is combined with the
    previous ciphertext block (the IV for the first) before the block
    transform. *)
Section Cbc.
Context `{BlockCipher}.

Fixpoint cbc_encrypt (n : nat) (k prev data : bytes) : bytes :=
  match n with
  | O => []
  | S n' =>
      let c := block_encrypt k (xor_block (take block_size data) prev) in
      c ++ cbc_encrypt n' k c (drop block_size data)
  end.

Fixpoint cbc_decrypt (n : nat) (k prev data : bytes) : bytes :=
  match n with
  | O => []
  | S n' =>
      let c := take block_size data in
      xor_block (block_decrypt k c) prev
        ++ cbc_decrypt n' k c (drop block_size data)
  end.

(** [AES.new(key, AES.MODE_CBC[, iv])]: the key length is checked
    first; without an IV a random one is drawn, a given IV must have
    the block size. *)
Definition new (k : bytes) (iv_arg : option bytes) : M cipher :=
  if key_ok k then
    match iv_arg with
    | None =>
        let* v := get_random_bytes block_size in
        ret (mkCipher k v)
    | Some v =>
        if length v =? block_size
        then ret (mkCipher k v)
        else raise ValueError
    end
  else raise ValueError.

(** [cipher.encrypt(data)] and [cipher.decrypt(data)]: data that is not
    a whole number of blocks is refused before any block is
    processed. *)
Definition encrypt (c : cipher) (data : bytes) : M bytes :=
  if length data `mod` block_size =? 0 then
    let n := length data `div` block_size in
    λ w, (Ok (cbc_encrypt n (key c) (iv c) data), add_block_calls n w)
  else raise ValueError.

Definition decrypt (c : cipher) (data : bytes) : M bytes :=
  if length data `mod` block_size =? 0 then
    let n := length data `div` block_size in
    λ w, (Ok (cbc_decrypt n (key c) (iv c) data), add_block_calls n w)
  else raise ValueError.
End Cbc.

End AES.

(** ** The program: padding *)

(** [# AES config] *)
Definition BLOCK_SIZE : Z := 16%Z.

(** [def pad(data)] *)
Definition pad (data : bytes) : result bytes :=
  let padding := (BLOCK_SIZE - len data `mod` BLOCK_SIZE)%Z in
  let! tail := bytes_of_ints (repeat_list padding padding) in
  Ok (data ++ tail).

(** The value of [padding] in [pad]: the number of bytes it appends. *)
Definition padding_length (data : bytes) : Z :=
  (BLOCK_SIZE - len data `mod` BLOCK_SIZE)%Z.

(** [def unpad(data)] *)
Definition unpad (data : bytes) : result bytes :=
  let! padding := getitem data (-1) in
  Ok (slice_to data (- int_of_byte padding)).

(** ** The program: files and actions *)

Definition newline : string := String "010"%char EmptyString.

Section Program.
Context `{AES.BlockCipher}.

(** [def encrypt_file(filepath, key)] *)
Definition encrypt_file (filepath : string) (key : bytes) : M string :=
  let* data := read_file filepath in
  let* data := lift (pad data) in
  let* cipher := AES.new key None in
  let* encrypted := AES.encrypt cipher data in
  let ciphertext := AES.iv cipher ++ encrypted in
  let out_path := filepath +:+ ".enc" in
  let* _ := write_file out_path ciphertext in
  ret out_path.

(** [def decrypt_file(filepath, key)]: [f.read(16)] takes at most 16
    bytes, [f.read()] the rest. *)
Definition decrypt_file (filepath : string) (key : bytes) : M string :=
  let* contents := read_file filepath in
  let iv := take 16 contents in
  let ciphertext := drop 16 contents in
  let* cipher := AES.new key (Some iv) in
  let* plain := AES.decrypt cipher ciphertext in
  let* decrypted := lift (unpad plain) in
  let out_path := str_replace filepath ".enc" ".dec" in
  let* _ := write_file out_path decrypted in
  ret out_path.

(** [def select_file_encrypt()]; [file_path] is the answer of
    [filedialog.askopenfilename()], empty when the user cancels. *)
Definition select_file_encrypt (file_path : string) : M unit :=
  if truthy file_path then
    let* key := get_random_bytes 32 in
    let* _ := write_file "key.bin" key in
    let* output := encrypt_file file_path key in
    showinfo "Success"
      ("Encrypted file saved as:" +:+ newline +:+ output +:+ newline
         +:+ "Key saved as key.bin")
  else ret tt.

(** [def select_file_decrypt()] *)
Definition select_file_decrypt (file_path : string) : M unit :=
  if truthy file_path then
    try_except
      (let* key := read_file "key.bin" in
       let* output := decrypt_file file_path key in
       showinfo "Success" ("Decrypted file saved as:" +:+ newline +:+ output))
      FileNotFoundError
      (showerror "Error" "Encryption key not found (key.bin)")
  else ret tt.

(** The buffer that [decrypt_file] hands to [unpad] when the envelope
    [env] is an IV followed by whole blocks. *)
Definition decrypted_buffer (k env : bytes) : bytes :=
  AES.cbc_decrypt ((length env - 16) `div` 16) k (take 16 env) (drop 16 env).

End Program.

(** The bytes that [get_random_bytes n] returns in world [w]; [fresh_key]
    is the key drawn by the encrypt action, [fresh_iv] the IV drawn by
    [AES.new]. *)
Definition next_random (w : world) (n : nat) : bytes :=
  map (entropy w) (seq (cursor w) n).
Definition fresh_key (w : world) : bytes := next_random w 32.
Definition fresh_iv (w : world) : bytes := next_random w AES.block_size.

(** The world once the encrypt action has drawn its key and stored it. *)
Definition key_stored (w : world) : world :=
  set_fs (insert "key.bin" (fresh_key w)) (set_cursor (cursor w + 32) w).

(** The three message boxes of the program. *)
Definition encrypted_message (output : string) : message :=
  Info "Success"
    ("Encrypted file saved as:" +:+ newline +:+ output +:+ newline
       +:+ "Key saved as key.bin").

Definition decrypted_message (output : string) : message :=
  Info "Success" ("Decrypted file saved as:" +:+ newline +:+ output).

Definition key_not_found : message :=
  Error "Error" "Encryption key not found (key.bin)".

(** The padding rule in the words of the specification: the final byte [p]
    satisfies [1 <= p <= 16] and the last [p] bytes all equal [p]. *)
Definition spec_padding_valid (buf : bytes) : bool :=
  match last buf with
  | None => false
  | Some b =>
      let p := Byte.to_nat b in
      (1 <=? p) && (p <=? 16) && (p <=? length buf)
      && forallb (Byte.eqb b) (drop (length buf - p) buf)
  end.

(** The decrypt output path in the words of the specification: the suffix
    [.enc] replaced by [.dec] if present, else [.dec] appended. *)
Fixpoint spec_decrypt_path (path : string) : string :=
  match path with
  | EmptyString => ".dec"
  | String c rest =>
      if String.eqb path ".enc" then ".dec" else String c (spec_decrypt_path rest)
  end.

(** ** A small instance on which the model runs *)

Module Fixture.

(** A stand-in block transform: reversing the block is a permutation of
    the 16-byte blocks. *)
Definition rev_cipher : AES.BlockCipher.
Proof.
  refine {| AES.block_encrypt := λ _ b, rev b;
            AES.block_decrypt := λ _ c, rev c |};
    intros; by rewrite ?length_rev, ?rev_involutive.
Defined.

(** The random tape 0, 1, 2, ... (modulo 256). *)
Definition tape (n : nat) : byte := default x00 (Byte.of_nat (n `mod` 256)).

Definition key32 : bytes := map tape (seq 0 32).
Definition key16 : bytes := map tape (seq 0 16).

(** The five bytes of [hello]. *)
Definition hello : bytes := [x68; x65; x6c; x6c; x6f].

Definition block16 : bytes := map tape (seq 64 16).

Definition w_hello : world :=
  mkWorld {[ "hello.txt" := hello ]} ∅ tape 0 0 [].

(** A world holding a 32-byte key and an envelope that is an IV and
    nothing else. *)
Definition w_bare_iv : world :=
  mkWorld {[ "key.bin" := key32; "empty.enc" := block16 ]} ∅ tape 0 0 [].

(** A world holding a 16-byte key and an envelope of an IV and one
    block. *)
Definition w_key16 : world :=
  mkWorld {[ "key.bin" := key16; "notes.txt" := block16 ++ block16 ]} ∅ tape 0 0 [].

(** A world holding a 32-byte key and an envelope whose single block
    does not decrypt to well-formed padding. *)
Definition w_garbled : world :=
  mkWorld {[ "key.bin" := key32; "garbled.enc" := block16 ++ key16 ]} ∅ tape 0 0 [].

(** A world holding a 32-byte key and an envelope in a directory whose
    name ends in [.enc]; no directory [vault.dec] exists. *)
Definition w_vault : world :=
  mkWorld {[ "key.bin" := key32; "vault.enc/notes.txt.enc" := block16 ++ key16 ]}
    ∅ tape 0 0 [].

End Fixture.

(** * Properties *)

(** ** Python runtime *)

Section PyFacts.
Local Open Scope Z_scope.

Lemma byte_of_int_Ok (z : Z) :
  0 <= z < 256 → ∃ b, byte_of_int z = Ok b ∧ int_of_byte b = z.
Proof.
  intros Hz. unfold byte_of_int, int_of_byte.
  replace ((0 <=? z) && (z <? 256))%bool with true
    by (symmetry; apply andb_true_iff; split; [apply Z.leb_le | apply Z.ltb_lt]; lia).
  destruct (Byte.of_N (Z.to_N z)) as [b|] eqn:Hb.
  - exists b. split; [done|]. apply Byte.to_of_N in Hb. rewrite Hb. lia.
  - apply Byte.of_N_None_iff in Hb. lia.
Qed.

Lemma int_of_byte_range (b : byte) : 0 <= int_of_byte b < 256.
Proof.
  unfold int_of_byte. pose proof (Byte.to_N_bounded b). lia.
Qed.

Lemma bytes_of_ints_replicate (n : nat) (z : Z) (b : byte) :
  byte_of_int z = Ok b →
  bytes_of_ints (replicate n z) = Ok (replicate n b).
Proof.
  intros Hb. induction n as [|n IH]; simpl; [done|].
  rewrite Hb. simpl. rewrite IH. done.
Qed.

Lemma getitem_minus_one {A} (l : list A) :
  getitem l (-1) =
    match last l with Some x => Ok x | None => Raise IndexError end.
Proof.
  unfold getitem, len. rewrite last_lookup.
  destruct l as [|a l]; [done|].
  cbn [length]. change (-1 <? 0) with true. cbv iota.
  replace ((0 <=? -1 + Z.of_nat (S (length l)))
           && (-1 + Z.of_nat (S (length l)) <? Z.of_nat (S (length l))))%bool
    with true
    by (symmetry; apply andb_true_iff; split; [apply Z.leb_le | apply Z.ltb_lt]; lia).
  replace (Z.to_nat (-1 + Z.of_nat (S (length l)))) with (Nat.pred (S (length l))) by lia.
  destruct ((a :: l) !! Nat.pred (S (length l))) eqn:E; [done|].
  apply lookup_ge_None in E. simpl in E. lia.
Qed.

Lemma slice_to_zero {A} (l : list A) : slice_to l 0 = [].
Proof.
  unfold slice_to. change (0 <? 0) with false. cbv iota.
  replace (Z.to_nat (Z.min 0 (len l))) with O by (unfold len; lia). done.
Qed.

Lemma slice_to_negative {A} (l : list A) (p : Z) :
  0 < p → slice_to l (- p) = take (length l - Z.to_nat p) l.
Proof.
  intros Hp. unfold slice_to, len.
  replace (- p <? 0) with true by (symmetry; apply Z.ltb_lt; lia).
  f_equal. lia.
Qed.

End PyFacts.

(** ** Padding *)

Section Padding.
Local Open Scope Z_scope.

Lemma padding_length_range (data : bytes) : 1 <= padding_length data <= 16.
Proof.
  unfold padding_length, BLOCK_SIZE.
  pose proof (Z.mod_pos_bound (len data) 16). lia.
Qed.

Lemma pad_eq (data : bytes) :
  ∃ b, int_of_byte b = padding_length data ∧
       pad data = Ok (data ++ replicate (Z.to_nat (padding_length data)) b).
Proof.
  pose proof (padding_length_range data) as Hr.
  destruct (byte_of_int_Ok (padding_length data)) as (b & Hb & Hv); [lia|].
  exists b. split; [done|].
  unfold pad. fold (padding_length data). unfold repeat_list.
  rewrite (bytes_of_ints_replicate _ _ b Hb). done.
Qed.

Lemma unpad_nil : unpad [] = Raise IndexError.
Proof. reflexivity. Qed.

Lemma unpad_last (data : bytes) (b : byte) :
  last data = Some b →
  unpad data =
    Ok (if int_of_byte b =? 0 then []
        else take (length data - Z.to_nat (int_of_byte b)) data).
Proof.
  intros Hl. unfold unpad. rewrite getitem_minus_one, Hl. simpl.
  pose proof (int_of_byte_range b) as Hr.
  destruct (int_of_byte b =? 0) eqn:E.
  - apply Z.eqb_eq in E. rewrite E. by rewrite slice_to_zero.
  - apply Z.eqb_neq in E. rewrite slice_to_negative by lia. done.
Qed.

Lemma unpad_pad (data padded : bytes) : pad data = Ok padded → unpad padded = Ok data.
Proof.
  destruct (pad_eq data) as (b & Hb & Hp). rewrite Hp. intros [= <-].
  pose proof (padding_length_range data) as Hr.
  set (p := Z.to_nat (padding_length data)) in *.
  assert (p ≠ O) as Hp0 by lia.
  rewrite (unpad_last _ b).
  - rewrite Hb. replace (padding_length data =? 0) with false
      by (symmetry; apply Z.eqb_neq; lia).
    fold p. rewrite length_app, length_replicate.
    replace (length data + p - p)%nat with (length data) by lia.
    by rewrite take_app_length.
  - destruct p as [|p']; [done|].
    rewrite replicate_S_end, app_assoc. apply last_snoc.
Qed.

End Padding.

(** ** The cipher library *)

Section CipherFacts.
Import AES.

Lemma xor_bits_cancel x y : xor_bits (xor_bits x y) y = x.
Proof.
  destruct x as (x0 & x1 & x2 & x3 & x4 & x5 & x6 & x7).
  destruct y as (y0 & y1 & y2 & y3 & y4 & y5 & y6 & y7).
  cbn [xor_bits].
  rewrite !xorb_assoc, !xorb_nilpotent, !xorb_false_r. reflexivity.
Qed.

Lemma xor_byte_cancel (a b : byte) : xor_byte (xor_byte a b) b = a.
Proof.
  unfold xor_byte. rewrite Byte.to_bits_of_bits, xor_bits_cancel.
  apply Byte.of_bits_to_bits.
Qed.

Lemma xor_block_length (a b : bytes) :
  length a = length b → length (xor_block a b) = length a.
Proof.
  intros Hl. unfold xor_block. rewrite length_zip_with. lia.
Qed.

Lemma xor_block_cancel (a b : bytes) :
  length a = length b → xor_block (xor_block a b) b = a.
Proof.
  unfold xor_block. revert b.
  induction a as [|x a IH]; intros [|y b] Hl; simpl in *; try done.
  rewrite xor_byte_cancel, IH by lia. done.
Qed.

Lemma key_ok_length (k : bytes) :
  key_ok k = true ↔ length k = 16 ∨ length k = 24 ∨ length k = 32.
Proof.
  unfold key_ok, key_size. simpl. rewrite !orb_true_iff, !Nat.eqb_eq.
  intuition discriminate.
Qed.

Context `{BlockCipher}.

Local Ltac blk := unfold block_size in *; lia.

Lemma take_block_length (n : nat) (data : bytes) :
  length data = S n * block_size → length (take block_size data) = block_size.
Proof. intros Hd. rewrite length_take. blk. Qed.

Lemma drop_block_length (n : nat) (data : bytes) :
  length data = S n * block_size → length (drop block_size data) = n * block_size.
Proof. intros Hd. rewrite length_drop. blk. Qed.

Lemma cbc_encrypt_length (n : nat) (k prev data : bytes) :
  key_ok k = true → length prev = block_size → length data = n * block_size →
  length (cbc_encrypt n k prev data) = n * block_size.
Proof.
  intros Hk. revert prev data.
  induction n as [|n IH]; intros prev data Hp Hd; [done|].
  pose proof (take_block_length _ _ Hd) as Ht.
  pose proof (drop_block_length _ _ Hd) as Hr.
  assert (length (xor_block (take block_size data) prev) = block_size) as Hx
    by (rewrite xor_block_length; congruence).
  cbn [cbc_encrypt]. rewrite length_app, block_encrypt_length by done.
  rewrite IH; [blk | by apply block_encrypt_length | done].
Qed.

Lemma cbc_decrypt_length (n : nat) (k prev data : bytes) :
  key_ok k = true → length prev = block_size → length data = n * block_size →
  length (cbc_decrypt n k prev data) = n * block_size.
Proof.
  intros Hk. revert prev data.
  induction n as [|n IH]; intros prev data Hp Hd; [done|].
  pose proof (take_block_length _ _ Hd) as Ht.
  pose proof (drop_block_length _ _ Hd) as Hr.
  assert (length (block_decrypt k (take block_size data)) = block_size) as Hx
    by (by apply block_decrypt_length).
  cbn [cbc_decrypt]. rewrite length_app, xor_block_length by congruence.
  rewrite Hx, IH; [blk | done | done].
Qed.

Lemma cbc_decrypt_encrypt (n : nat) (k prev data : bytes) :
  key_ok k = true → length prev = block_size → length data = n * block_size →
  cbc_decrypt n k prev (cbc_encrypt n k prev data) = data.
Proof.
  intros Hk. revert prev data.
  induction n as [|n IH]; intros prev data Hp Hd.
  - destruct data; [done|]. simpl in Hd. lia.
  - pose proof (take_block_length _ _ Hd) as Ht.
    pose proof (drop_block_length _ _ Hd) as Hr.
    cbn [cbc_encrypt cbc_decrypt].
    set (blk := take block_size data) in *.
    assert (length (xor_block blk prev) = block_size) as Hx
      by (rewrite xor_block_length; congruence).
    set (c := block_encrypt k (xor_block blk prev)).
    assert (length c = block_size) as Hc by (by apply block_encrypt_length).
    rewrite take_app_length', drop_app_length' by done.
    unfold c at 1. rewrite block_decrypt_encrypt by done.
    rewrite xor_block_cancel by congruence.
    rewrite IH by done. apply take_drop.
Qed.

End CipherFacts.

(** ** Strings and [str.replace] *)

Section ReplaceFacts.

Lemma append_String (c : ascii) (s t : string) :
  String c s +:+ t = String c (s +:+ t).
Proof. reflexivity. Qed.

Lemma append_empty_l (t : string) : "" +:+ t = t.
Proof. reflexivity. Qed.

Lemma append_assoc (s t u : string) : (s +:+ t) +:+ u = s +:+ t +:+ u.
Proof.
  induction s as [|c s IH]; [done|]. by rewrite !append_String, IH.
Qed.

Lemma length_append (s t : string) :
  String.length (s +:+ t) = String.length s + String.length t.
Proof.
  induction s as [|c s IH]; [done|]. rewrite append_String. simpl. by rewrite IH.
Qed.

Lemma str_drop_length (n : nat) (s : string) :
  String.length (str_drop n s) = String.length s - n.
Proof.
  revert s. induction n as [|n IH]; intros [|c s]; simpl; first [done | lia].
Qed.

Lemma prefix_split (old s : string) :
  String.prefix old s = true → s = old +:+ str_drop (String.length old) s.
Proof.
  revert s. induction old as [|a old IH]; intros s Hp; [done|].
  destruct s as [|b s]; simpl in Hp; [done|].
  destruct (ascii_dec a b) as [->|]; [|done].
  rewrite append_String. simpl. by rewrite <- IH.
Qed.

Lemma prefix_append (old t : string) : String.prefix old (old +:+ t) = true.
Proof.
  induction old as [|a old IH]; [by destruct t|].
  rewrite append_String. simpl. by destruct (ascii_dec a a).
Qed.

(** The scan has finished within [String.length s] steps: more fuel
    changes nothing. *)
Lemma replace_scan_fuel (old new : string) (f1 f2 : nat) (s : string) :
  old ≠ "" → String.length s ≤ f1 → String.length s ≤ f2 →
  replace_scan f1 old new s = replace_scan f2 old new s.
Proof.
  intros Hold. revert f2 s.
  induction f1 as [|f1 IH]; intros f2 s H1 H2.
  - destruct s; [by destruct f2 | simpl in H1; lia].
  - destruct s as [|c s]; [by destruct f2|].
    destruct f2 as [|f2]; [simpl in H2; lia|].
    simpl in H1, H2. cbn [replace_scan].
    destruct (String.prefix old (String c s)); [|f_equal; apply IH; lia].
    f_equal. apply IH; rewrite str_drop_length; simpl;
      destruct old; [done | simpl; lia | done | simpl; lia].
Qed.

(** Without an occurrence of [old] the string is left as it is. *)
Lemma replace_scan_absent (old new : string) (fuel : nat) (s : string) :
  (∀ a b, s ≠ a +:+ old +:+ b) → replace_scan fuel old new s = s.
Proof.
  revert s. induction fuel as [|fuel IH]; intros s Hs; [done|].
  destruct s as [|c s]; [done|]. cbn [replace_scan].
  destruct (String.prefix old (String c s)) eqn:Hp.
  - apply prefix_split in Hp. by destruct (Hs "" (str_drop (String.length old) (String c s))).
  - f_equal. apply IH. intros a b ->. by apply (Hs (String c a) b).
Qed.

(** No occurrence of [".enc"] can start before a final [".enc"] and end
    inside it, since its only dot is its first character. *)
Lemma prefix_enc_append (c : ascii) (s : string) :
  String.prefix ".enc" (String c s +:+ ".enc") = String.prefix ".enc" (String c s).
Proof.
  destruct s as [|c2 [|c3 [|c4 s]]]; rewrite ?append_String, ?append_empty_l;
    cbn [String.prefix]; repeat (destruct (ascii_dec _ _)); subst; try done.
  by destruct s.
Qed.

Lemma replace_scan_enc_suffix (fuel : nat) (s : string) :
  String.length s ≤ fuel →
  replace_scan (4 + fuel) ".enc" ".dec" (s +:+ ".enc")
  = replace_scan fuel ".enc" ".dec" s +:+ ".dec".
Proof.
  revert s. induction fuel as [|fuel IH]; intros s Hl.
  - destruct s; [done | simpl in Hl; lia].
  - destruct s as [|c s]; [done|].
    change (4 + S fuel) with (S (4 + fuel)). cbn [replace_scan].
    rewrite append_String. rewrite <- (append_String c s ".enc"), prefix_enc_append.
    destruct (String.prefix ".enc" (String c s)) eqn:Hp.
    + apply prefix_split in Hp. rewrite Hp at 1 2. 
      set (t := str_drop (String.length ".enc") (String c s)) in *.
      rewrite !append_assoc.
      assert (String.length t ≤ fuel) as Ht
        by (unfold t; rewrite str_drop_length; simpl in *; lia).
      change (str_drop (String.length ".enc") (".enc" +:+ t +:+ ".enc")) with (t +:+ ".enc").
      change (str_drop (String.length ".enc") (".enc" +:+ t)) with t.
      by rewrite IH.
    + rewrite !append_String. f_equal. apply IH. simpl in Hl. lia.
Qed.

Lemma str_replace_enc_absent (path : string) :
  (∀ a b, path ≠ a +:+ ".enc" +:+ b) → str_replace path ".enc" ".dec" = path.
Proof. apply replace_scan_absent. Qed.

Lemma str_replace_enc_suffix (stem : string) :
  str_replace (stem +:+ ".enc") ".enc" ".dec"
  = str_replace stem ".enc" ".dec" +:+ ".dec".
Proof.
  unfold str_replace. rewrite length_append, Nat.add_comm.
  by apply replace_scan_enc_suffix.
Qed.

End ReplaceFacts.

(** ** Opening a file for writing *)

Section WriteFacts.

Lemma dirs_above_from_append (seen p s : string) :
  (∀ seen', dirs_above_from seen' s = []) →
  dirs_above_from seen (p +:+ s) = dirs_above_from seen p.
Proof.
  intros Hs. revert seen. induction p as [|c p IH]; intros seen.
  - rewrite append_empty_l. apply Hs.
  - rewrite append_String. cbn [dirs_above_from]. by rewrite IH.
Qed.

Lemma dirs_above_enc (p : string) : dirs_above (p +:+ ".enc") = dirs_above p.
Proof. by apply dirs_above_from_append. Qed.

Lemma dirs_above_dec (p : string) : dirs_above (p +:+ ".dec") = dirs_above p.
Proof. by apply dirs_above_from_append. Qed.

Lemma dir_exists_spec (w : world) (d : string) :
  dir_exists w d = true ↔
  d = "" ∨ d ∈ dirs w ∨ ∃ q, q ∈ dom (fs w) ∪ dirs w ∧ d ∈ dirs_above q.
Proof.
  unfold dir_exists. rewrite !orb_true_iff, !bool_decide_eq_true, existsb_exists.
  split.
  - intros [[?|?]|(q & Hq & Hd)]; auto.
    right. right. exists q. apply bool_decide_eq_true in Hd.
    split; [|done]. apply elem_of_elements, list_elem_of_In, Hq.
  - intros [?|[?|(q & Hq & Hd)]]; auto.
    right. exists q. split; [by apply list_elem_of_In, elem_of_elements|].
    by apply bool_decide_eq_true.
Qed.

Lemma dir_exists_above_file (w : world) (p d : string) (x : bytes) :
  fs w !! p = Some x → d ∈ dirs_above p → dir_exists w d = true.
Proof.
  intros Hp Hd. apply dir_exists_spec. right. right. exists p.
  split; [|done]. apply elem_of_union_l, elem_of_dom. by eexists.
Qed.

Lemma resolve_None (w : world) (ds : list string) :
  resolve w ds = None ↔ ∀ d, d ∈ ds → dir_exists w d = true.
Proof.
  induction ds as [|d ds IH]; simpl.
  - split; [by intros _ d ?%elem_of_nil | done].
  - destruct (dir_exists w d) eqn:E.
    + rewrite IH. split.
      * intros Hall d' [->|?]%elem_of_cons; auto.
      * intros Hall d' ?. apply Hall. by right.
    + split; [done|]. intros Hall. rewrite Hall in E; [done | by left].
Qed.

(** Only the files and the directories count. *)
Lemma open_for_writing_same (w1 w2 : world) (path : string) :
  fs w1 = fs w2 → dirs w1 = dirs w2 →
  open_for_writing w1 path = open_for_writing w2 path.
Proof.
  intros Hf Hd. unfold open_for_writing.
  induction (dirs_above path) as [|d ds IH]; [done|]. simpl.
  unfold dir_exists. by rewrite Hf, Hd, IH.
Qed.

(** A file can be created beside an existing file. *)
Lemma open_for_writing_beside (w : world) (p q : string) (x : bytes) :
  fs w !! p = Some x → dirs_above q = dirs_above p →
  open_for_writing w q = None.
Proof.
  intros Hp Hq. apply resolve_None. rewrite Hq. intros d Hd.
  by eapply dir_exists_above_file.
Qed.

(** What can be created stays so when a file is written. *)
Lemma open_for_writing_insert (w : world) (path p : string) (x : bytes) :
  open_for_writing w path = None →
  open_for_writing (set_fs (insert p x) w) path = None.
Proof.
  unfold open_for_writing. rewrite !resolve_None. intros Hall d Hd.
  specialize (Hall d Hd). apply dir_exists_spec in Hall. apply dir_exists_spec.
  destruct Hall as [?|[?|(q & Hin & Hdq)]]; auto.
  right. right. exists q. split; [|done]. cbn [fs dirs set_fs].
  rewrite dom_insert_L.
  apply elem_of_union in Hin as [Hin|Hin].
  - by apply elem_of_union_l, elem_of_union_r.
  - by apply elem_of_union_r.
Qed.

Lemma write_file_Ok (path : string) (data : bytes) (w : world) :
  open_for_writing w path = None →
  write_file path data w = (Ok tt, set_fs (insert path data) w).
Proof. intros Ho. unfold write_file. by rewrite Ho. Qed.

Lemma write_file_Raise (path : string) (data : bytes) (w : world) (e : exn) :
  open_for_writing w path = Some e → write_file path data w = (Raise e, w).
Proof. intros Ho. unfold write_file. by rewrite Ho. Qed.

(** [open] raises one of two exceptions. *)
Lemma open_for_writing_Some (w : world) (path : string) (e : exn) :
  open_for_writing w path = Some e →
  e = FileNotFoundError ∨ e = NotADirectoryError.
Proof.
  unfold open_for_writing. induction (dirs_above path) as [|d ds IH]; [done|].
  simpl. destruct (dir_exists w d); [done|].
  intros [= <-]. destruct (bool_decide _); auto.
Qed.

End WriteFacts.

(** ** The monad and the library calls *)

Section MonadFacts.
Import AES.

Lemma bind_Ok {A B} (m : M A) (k : A → M B) (w w' : world) (a : A) :
  m w = (Ok a, w') → bind m k w = k a w'.
Proof. intros Hm. unfold bind. by rewrite Hm. Qed.

Lemma bind_Raise {A B} (m : M A) (k : A → M B) (w w' : world) (e : exn) :
  m w = (Raise e, w') → bind m k w = (Raise e, w').
Proof. intros Hm. unfold bind. by rewrite Hm. Qed.

Lemma add_block_calls_0 (w : world) : add_block_calls 0 w = w.
Proof. destruct w. unfold add_block_calls. simpl. by rewrite Nat.add_0_r. Qed.

Lemma read_file_Some (path : string) (data : bytes) (w : world) :
  fs w !! path = Some data → read_file path w = (Ok data, w).
Proof. intros Hf. unfold read_file. by rewrite Hf. Qed.

Lemma read_file_None (path : string) (w : world) :
  fs w !! path = None → read_file path w = (Raise FileNotFoundError, w).
Proof. intros Hf. unfold read_file. by rewrite Hf. Qed.

Lemma get_random_bytes_length (n : nat) (w w' : world) (r : bytes) :
  get_random_bytes n w = (Ok r, w') → length r = n.
Proof. intros [= <- _]. by rewrite length_map, length_seq. Qed.

Context `{BlockCipher}.

Lemma new_bad_key (k : bytes) (iv_arg : option bytes) (w : world) :
  key_ok k = false → new k iv_arg w = (Raise ValueError, w).
Proof. intros Hk. unfold new. by rewrite Hk. Qed.

Lemma new_with_iv (k v : bytes) (w : world) :
  key_ok k = true → length v = block_size →
  new k (Some v) w = (Ok (mkCipher k v), w).
Proof.
  intros Hk Hv. unfold new. rewrite Hk.
  by replace (length v =? block_size) with true by (symmetry; by apply Nat.eqb_eq).
Qed.

Lemma new_bad_iv (k v : bytes) (w : world) :
  length v ≠ block_size → new k (Some v) w = (Raise ValueError, w).
Proof.
  intros Hv. unfold new. destruct (key_ok k); [|done].
  by replace (length v =? block_size) with false by (symmetry; by apply Nat.eqb_neq).
Qed.

Lemma new_random_iv (k : bytes) (w : world) :
  key_ok k = true →
  new k None w =
    (Ok (mkCipher k (map (entropy w) (seq (cursor w) block_size))),
     set_cursor (cursor w + block_size) w).
Proof. intros Hk. unfold new. by rewrite Hk. Qed.

Lemma whole_blocks (n : nat) (data : bytes) :
  length data = n * block_size →
  length data `mod` block_size = 0 ∧ length data `div` block_size = n.
Proof.
  intros ->. split; [apply Nat.Div0.mod_mul | by apply Nat.div_mul].
Qed.

Lemma encrypt_whole_blocks (c : cipher) (n : nat) (data : bytes) (w : world) :
  length data = n * block_size →
  encrypt c data w = (Ok (cbc_encrypt n (key c) (iv c) data), add_block_calls n w).
Proof.
  intros Hd. destruct (whole_blocks _ _ Hd) as [Hm Hq].
  unfold encrypt. by rewrite Hm, Hq.
Qed.

Lemma decrypt_whole_blocks (c : cipher) (n : nat) (data : bytes) (w : world) :
  length data = n * block_size →
  decrypt c data w = (Ok (cbc_decrypt n (key c) (iv c) data), add_block_calls n w).
Proof.
  intros Hd. destruct (whole_blocks _ _ Hd) as [Hm Hq].
  unfold decrypt. by rewrite Hm, Hq.
Qed.

Lemma decrypt_partial_block (c : cipher) (data : bytes) (w : world) :
  length data `mod` block_size ≠ 0 → decrypt c data w = (Raise ValueError, w).
Proof.
  intros Hd. unfold decrypt.
  by replace (length data `mod` block_size =? 0) with false
    by (symmetry; by apply Nat.eqb_neq).
Qed.

End MonadFacts.

(** ** The two file operations *)

Section FileFacts.
Import AES.
Context `{BlockCipher}.

Lemma bind_lift_Ok {A B} (r : result A) (a : A) (k : A → M B) (w : world) :
  r = Ok a → bind (lift r) k w = k a w.
Proof. by intros ->. Qed.

Lemma bind_lift_Raise {A B} (r : result A) (e : exn) (k : A → M B) (w : world) :
  r = Raise e → bind (lift r) k w = (Raise e, w).
Proof. by intros ->. Qed.

Lemma pad_length (data padded : bytes) :
  pad data = Ok padded →
  length padded = S (length data `div` 16) * block_size.
Proof.
  destruct (pad_eq data) as (b & _ & Hp). rewrite Hp. intros [= <-].
  rewrite length_app, length_replicate.
  unfold padding_length, BLOCK_SIZE, len, block_size.
  change 16%Z with (Z.of_nat 16). rewrite <- Nat2Z.inj_mod.
  pose proof (Nat.div_mod_eq (length data) 16) as Hdm.
  pose proof (Nat.mod_upper_bound (length data) 16) as Hub.
  lia.
Qed.

Lemma fresh_iv_length (w : world) : length (fresh_iv w) = block_size.
Proof. unfold fresh_iv, next_random. by rewrite length_map, length_seq. Qed.

Lemma encrypt_file_Ok (path : string) (k data : bytes) (w : world) :
  key_ok k = true → fs w !! path = Some data →
  ∃ padded n,
    pad data = Ok padded ∧ n = S (length data `div` 16) ∧
    encrypt_file path k w =
      (Ok (path +:+ ".enc"),
       set_fs (insert (path +:+ ".enc")
                 (fresh_iv w ++ cbc_encrypt n k (fresh_iv w) padded))
         (add_block_calls n (set_cursor (cursor w + block_size) w))).
Proof.
  intros Hk Hf.
  destruct (pad_eq data) as (b & _ & Hp).
  eexists _, _. split; [exact Hp|]. split; [reflexivity|].
  pose proof (pad_length _ _ Hp) as Hl.
  unfold encrypt_file.
  rewrite (bind_Ok _ _ _ _ _ (read_file_Some _ _ _ Hf)).
  rewrite (bind_lift_Ok _ _ _ _ Hp).
  rewrite (bind_Ok _ _ _ _ _ (new_random_iv _ _ Hk)).
  rewrite (bind_Ok _ _ _ _ _ (encrypt_whole_blocks _ _ _ _ Hl)).
  assert (open_for_writing
            (add_block_calls (S (length data `div` 16))
               (set_cursor (cursor w + block_size) w)) (path +:+ ".enc") = None) as Ho
    by (apply (open_for_writing_beside _ path _ data); [exact Hf | apply dirs_above_enc]).
  by rewrite (bind_Ok _ _ _ _ _ (write_file_Ok _ _ _ Ho)).
Qed.

Lemma decrypt_file_missing (path : string) (k : bytes) (w : world) :
  fs w !! path = None → decrypt_file path k w = (Raise FileNotFoundError, w).
Proof.
  intros Hf. unfold decrypt_file.
  by rewrite (bind_Raise _ _ _ _ _ (read_file_None _ _ Hf)).
Qed.

Lemma decrypt_file_bad_key (path : string) (k env : bytes) (w : world) :
  fs w !! path = Some env → key_ok k = false →
  decrypt_file path k w = (Raise ValueError, w).
Proof.
  intros Hf Hk. unfold decrypt_file.
  rewrite (bind_Ok _ _ _ _ _ (read_file_Some _ _ _ Hf)).
  by rewrite (bind_Raise _ _ _ _ _ (new_bad_key _ _ _ Hk)).
Qed.

Lemma decrypt_file_short (path : string) (k env : bytes) (w : world) :
  fs w !! path = Some env → length env < 16 →
  decrypt_file path k w = (Raise ValueError, w).
Proof.
  intros Hf Hl. unfold decrypt_file.
  rewrite (bind_Ok _ _ _ _ _ (read_file_Some _ _ _ Hf)).
  rewrite (bind_Raise _ _ _ w ValueError); [done|].
  apply new_bad_iv. rewrite length_take. unfold block_size. lia.
Qed.

Lemma decrypt_file_partial_block (path : string) (k env : bytes) (w : world) :
  fs w !! path = Some env → 16 ≤ length env → (length env - 16) `mod` 16 ≠ 0 →
  decrypt_file path k w = (Raise ValueError, w).
Proof.
  intros Hf Hl Hm. unfold decrypt_file.
  rewrite (bind_Ok _ _ _ _ _ (read_file_Some _ _ _ Hf)).
  destruct (key_ok k) eqn:Hk.
  - assert (length (take 16 env) = block_size) as Hiv
      by (rewrite length_take; unfold block_size; lia).
    rewrite (bind_Ok _ _ _ _ _ (new_with_iv _ _ w Hk Hiv)).
    rewrite (bind_Raise _ _ _ w ValueError); [done|].
    apply decrypt_partial_block. by rewrite length_drop.
  - by rewrite (bind_Raise _ _ _ _ _ (new_bad_key _ _ _ Hk)).
Qed.

Lemma decrypted_buffer_length (k env : bytes) (n : nat) :
  key_ok k = true → length env = 16 + n * 16 →
  length (decrypted_buffer k env) = n * 16.
Proof.
  intros Hk Hl. unfold decrypted_buffer.
  replace ((length env - 16) `div` 16) with n
    by (rewrite Hl, Nat.add_comm, Nat.add_sub; symmetry; by apply Nat.div_mul).
  apply (cbc_decrypt_length n k); [done | |].
  - rewrite length_take. unfold block_size. lia.
  - rewrite length_drop. unfold block_size. lia.
Qed.

Lemma decrypt_file_whole_blocks (path : string) (k env : bytes) (n : nat) (w : world) :
  fs w !! path = Some env → key_ok k = true → length env = 16 + n * 16 →
  decrypt_file path k w =
    match unpad (decrypted_buffer k env) with
    | Ok plain =>
        match open_for_writing w (str_replace path ".enc" ".dec") with
        | None =>
            (Ok (str_replace path ".enc" ".dec"),
             set_fs (insert (str_replace path ".enc" ".dec") plain)
               (add_block_calls n w))
        | Some e => (Raise e, add_block_calls n w)
        end
    | Raise e => (Raise e, add_block_calls n w)
    end.
Proof.
  intros Hf Hk Hl. unfold decrypt_file.
  rewrite (bind_Ok _ _ _ _ _ (read_file_Some _ _ _ Hf)).
  assert (length (take 16 env) = block_size) as Hiv
    by (rewrite length_take; unfold block_size; lia).
  rewrite (bind_Ok _ _ _ _ _ (new_with_iv _ _ w Hk Hiv)).
  assert (length (drop 16 env) = n * block_size) as Hd
    by (rewrite length_drop; unfold block_size; lia).
  rewrite (bind_Ok _ _ _ _ _ (decrypt_whole_blocks _ _ _ _ Hd)).
  unfold decrypted_buffer.
  replace ((length env - 16) `div` 16) with n
    by (rewrite Hl, Nat.add_comm, Nat.add_sub; symmetry; by apply Nat.div_mul).
  cbn [key iv].
  destruct (unpad _) as [plain|e]; [|reflexivity].
  rewrite (bind_lift_Ok _ plain _ _ eq_refl).
  rewrite <- (open_for_writing_same (add_block_calls n w) w) by reflexivity.
  destruct (open_for_writing (add_block_calls n w) _) as [e|] eqn:Ho.
  - by rewrite (bind_Raise _ _ _ _ _ (write_file_Raise _ _ _ _ Ho)).
  - by rewrite (bind_Ok _ _ _ _ _ (write_file_Ok _ _ _ Ho)).
Qed.

End FileFacts.


(** * The claims *)

(** ** Padding and its removal *)

Section PaddingClaims.

Lemma to_nat_int_of_byte (b : byte) : Z.to_nat (int_of_byte b) = Byte.to_nat b.
Proof. unfold int_of_byte. rewrite Byte.to_nat_via_N. lia. Qed.

Lemma unpad_last_nat (buf : bytes) (b : byte) :
  last buf = Some b →
  unpad buf =
    Ok (if Byte.to_nat b =? 0 then [] else take (length buf - Byte.to_nat b) buf).
Proof.
  intros Hl. rewrite (unpad_last _ _ Hl), to_nat_int_of_byte.
  pose proof (int_of_byte_range b) as Hr.
  pose proof (to_nat_int_of_byte b) as Hn.
  destruct (Z.eqb_spec (int_of_byte b) 0), (Nat.eqb_spec (Byte.to_nat b) 0);
    first [done | lia].
Qed.

Lemma last_nonempty {A} (l : list A) : l ≠ [] → ∃ x, last l = Some x.
Proof.
  intros Hl. destruct (last l) as [x|] eqn:E; [by exists x|].
  by apply last_None in E.
Qed.

Lemma forallb_eqb_replicate (b : byte) (l : bytes) :
  forallb (Byte.eqb b) l = true → l = replicate (length l) b.
Proof.
  induction l as [|x l IH]; [done|]. simpl.
  intros [Hx Hl]%andb_true_iff. apply Byte.byte_dec_bl in Hx.
  rewrite <- Hx. f_equal. by apply IH.
Qed.

End PaddingClaims.

(** C7. For every plaintext [P], [pad] appends exactly [p] bytes, each of
    value [p], where [1 <= p <= 16], [p] is congruent to [-len(P)] modulo
    16, and [p = 16] when [len(P)] is a multiple of 16; the padded length is
    [len(P) + p] and is a multiple of 16. *)
Theorem pad_appends_block_padding (P : bytes) :
  ∃ (p : Z) (b : byte),
    (1 ≤ p ≤ 16)%Z ∧ int_of_byte b = p ∧
    (p `mod` 16 = (- len P) `mod` 16)%Z ∧
    ((len P `mod` 16 = 0)%Z → p = 16%Z) ∧
    pad P = Ok (P ++ replicate (Z.to_nat p) b) ∧
    len (P ++ replicate (Z.to_nat p) b) = (len P + p)%Z ∧
    (len (P ++ replicate (Z.to_nat p) b) `mod` 16 = 0)%Z.
Proof.
  destruct (pad_eq P) as (b & Hb & Hp).
  pose proof (padding_length_range P) as Hr.
  exists (padding_length P), b.
  assert (len (P ++ replicate (Z.to_nat (padding_length P)) b)
          = (len P + padding_length P)%Z) as Hlen
    by (unfold len; rewrite length_app, length_replicate; lia).
  repeat split; try done; try lia.
  - unfold padding_length, BLOCK_SIZE. Z.div_mod_to_equations. lia.
  - unfold padding_length, BLOCK_SIZE. intros ->. lia.
  - rewrite Hlen. unfold padding_length, BLOCK_SIZE. Z.div_mod_to_equations. lia.
Qed.

Lemma pad_appends_block_padding_witness :
  ∃ (p : Z) (b : byte),
    (1 ≤ p ≤ 16)%Z ∧ int_of_byte b = p ∧
    (p `mod` 16 = (- len Fixture.hello) `mod` 16)%Z ∧
    ((len Fixture.hello `mod` 16 = 0)%Z → p = 16%Z) ∧
    pad Fixture.hello = Ok (Fixture.hello ++ replicate (Z.to_nat p) b) ∧
    len (Fixture.hello ++ replicate (Z.to_nat p) b) = (len Fixture.hello + p)%Z ∧
    (len (Fixture.hello ++ replicate (Z.to_nat p) b) `mod` 16 = 0)%Z.
Proof. exact (pad_appends_block_padding Fixture.hello). Defined.

(** C2, as the program has it. After the block-cipher step the final byte
    [p] of the decrypted buffer is read and nothing is checked: a non-empty
    buffer is never refused. When the padding is well formed ([1 <= p <= 16]
    and the last [p] bytes all equal [p]) exactly those [p] bytes are
    removed; when it is not, the last [p] bytes are removed all the same,
    whatever they are, and everything is removed when [p = 0] or [p] exceeds
    the length. *)
Theorem unpad_checks_nothing (buf : bytes) (b : byte) :
  last buf = Some b →
  ∃ out,
    unpad buf = Ok out ∧
    (spec_padding_valid buf = true →
       out = take (length buf - Byte.to_nat b) buf ∧
       buf = out ++ replicate (Byte.to_nat b) b) ∧
    (spec_padding_valid buf = false →
       out = if Byte.to_nat b =? 0 then []
             else take (length buf - Byte.to_nat b) buf).
Proof.
  intros Hl. eexists. split; [by apply unpad_last_nat|]. split; [|done].
  unfold spec_padding_valid. rewrite Hl.
  intros Hv. rewrite !andb_true_iff, !Nat.leb_le in Hv.
  destruct Hv as [[[H1 H16] Hlen] Hall].
  replace (Byte.to_nat b =? 0) with false by (symmetry; apply Nat.eqb_neq; lia).
  split; [done|].
  apply forallb_eqb_replicate in Hall. rewrite length_drop in Hall.
  replace (length buf - (length buf - Byte.to_nat b)) with (Byte.to_nat b) in Hall by lia.
  rewrite <- Hall. symmetry. apply take_drop.
Qed.

Lemma unpad_checks_nothing_witness :
  ∃ out,
    unpad [x41; x42; x07; x02] = Ok out ∧
    (spec_padding_valid [x41; x42; x07; x02] = true →
       out = take (4 - Byte.to_nat x02) [x41; x42; x07; x02] ∧
       [x41; x42; x07; x02] = out ++ replicate (Byte.to_nat x02) x02) ∧
    (spec_padding_valid [x41; x42; x07; x02] = false →
       out = if Byte.to_nat x02 =? 0 then []
             else take (4 - Byte.to_nat x02) [x41; x42; x07; x02]).
Proof. apply (unpad_checks_nothing [x41; x42; x07; x02] x02). reflexivity. Defined.

(** C2 fails as stated: a 16-byte buffer that ends in the byte 2 preceded
    by the byte 7 is not well-formed padding, and a buffer that ends in the
    byte 69 is not either, yet [unpad] refuses neither; and [decrypt_file]
    on an envelope whose block decrypts to sixteen bytes of value 79 ends
    well, writing an empty file. *)
Lemma unpad_accepts_malformed_padding :
  let buf1 := [x59; x45; x4c; x4c; x4f; x57; x20; x53;
               x55; x42; x4d; x41; x52; x49; x07; x02] in
  let buf2 := [x59; x45; x4c; x4c; x4f; x57; x20; x53;
               x55; x42; x4d; x41; x52; x49; x4e; x45] in
  let run := decrypt_file (H := Fixture.rev_cipher)
                "garbled.enc" Fixture.key32 Fixture.w_garbled in
  spec_padding_valid buf1 = false ∧
  unpad buf1 = Ok [x59; x45; x4c; x4c; x4f; x57; x20; x53;
                   x55; x42; x4d; x41; x52; x49] ∧
  spec_padding_valid buf2 = false ∧
  unpad buf2 = Ok [] ∧
  decrypted_buffer (H := Fixture.rev_cipher) Fixture.key32
    (Fixture.block16 ++ Fixture.key16) = replicate 16 x4f ∧
  spec_padding_valid (replicate 16 x4f) = false ∧
  fst run = Ok "garbled.dec" ∧
  fs (snd run) !! "garbled.dec" = Some [].
Proof. repeat split; reflexivity. Qed.

(** ** Decryption, case by case *)

Section DecryptCases.
Import AES.
Context `{BlockCipher}.

Lemma envelope_cases (env : bytes) :
  length env < 16
  ∨ (16 ≤ length env ∧ (length env - 16) `mod` 16 ≠ 0)
  ∨ ∃ n, length env = 16 + n * 16.
Proof.
  destruct (decide (length env < 16)) as [|Hge]; [by left|]. right.
  destruct (decide ((length env - 16) `mod` 16 = 0)) as [Hm|]; [right | left; lia].
  exists ((length env - 16) `div` 16).
  pose proof (Nat.div_mod_eq (length env - 16) 16). lia.
Qed.

Lemma unpad_nonempty (buf : bytes) : buf ≠ [] → ∃ out, unpad buf = Ok out.
Proof.
  intros [b Hb]%last_nonempty. eexists. by apply unpad_last_nat.
Qed.

Lemma unpad_Raise (buf : bytes) (e : exn) :
  unpad buf = Raise e ↔ buf = [] ∧ e = IndexError.
Proof.
  split.
  - destruct buf as [|x buf]; [by intros [= <-]|].
    destruct (unpad_nonempty (x :: buf)) as [out Ho]; [done|]. by rewrite Ho.
  - by intros [-> ->].
Qed.

Lemma decrypt_file_bare_iv (path : string) (k env : bytes) (w : world) :
  fs w !! path = Some env → key_ok k = true → length env = 16 →
  decrypt_file path k w = (Raise IndexError, w).
Proof.
  intros Hf Hk Hl.
  rewrite (decrypt_file_whole_blocks path k env 0 w Hf Hk) by lia.
  unfold decrypted_buffer. rewrite Hl. simpl. by rewrite add_block_calls_0.
Qed.

Lemma decrypt_file_some_blocks (path : string) (k env : bytes) (n : nat) (w : world) :
  fs w !! path = Some env → key_ok k = true → length env = 16 + S n * 16 →
  open_for_writing w (str_replace path ".enc" ".dec") = None →
  ∃ plain,
    unpad (decrypted_buffer k env) = Ok plain ∧
    decrypt_file path k w =
      (Ok (str_replace path ".enc" ".dec"),
       set_fs (insert (str_replace path ".enc" ".dec") plain)
         (add_block_calls (S n) w)).
Proof.
  intros Hf Hk Hl Ho.
  pose proof (decrypted_buffer_length k env (S n) Hk Hl) as Hb.
  destruct (unpad_nonempty (decrypted_buffer k env)) as [plain Hp].
  { intros E. rewrite E in Hb. simpl in Hb. lia. }
  exists plain. split; [done|].
  by rewrite (decrypt_file_whole_blocks path k env (S n) w Hf Hk Hl), Hp, Ho.
Qed.

(** When the output file cannot be opened the blocks have been decrypted,
    and nothing is written. *)
Lemma decrypt_file_blocked (path : string) (k env : bytes) (n : nat) (w : world)
    (e : exn) :
  fs w !! path = Some env → key_ok k = true → length env = 16 + S n * 16 →
  open_for_writing w (str_replace path ".enc" ".dec") = Some e →
  decrypt_file path k w = (Raise e, add_block_calls (S n) w).
Proof.
  intros Hf Hk Hl Ho.
  pose proof (decrypted_buffer_length k env (S n) Hk Hl) as Hb.
  destruct (unpad_nonempty (decrypted_buffer k env)) as [plain Hp].
  { intros E. rewrite E in Hb. simpl in Hb. lia. }
  by rewrite (decrypt_file_whole_blocks path k env (S n) w Hf Hk Hl), Hp, Ho.
Qed.

(** Every way [decrypt_file] can end on an existing file. *)
Lemma decrypt_file_cases (path : string) (k env : bytes) (w : world) :
  fs w !! path = Some env →
  decrypt_file path k w = (Raise ValueError, w)
  ∨ (key_ok k = true ∧ length env = 16
     ∧ decrypt_file path k w = (Raise IndexError, w))
  ∨ (key_ok k = true ∧ ∃ n, length env = 16 + S n * 16
     ∧ ((∃ out w', decrypt_file path k w = (Ok out, w'))
        ∨ (∃ e w', decrypt_file path k w = (Raise e, w')
           ∧ (e = FileNotFoundError ∨ e = NotADirectoryError)))).
Proof.
  intros Hf. destruct (key_ok k) eqn:Hk; [|left; by eapply decrypt_file_bad_key].
  destruct (envelope_cases env) as [Hs|[[Hge Hm]|[[|n] Hn]]].
  - left. by eapply decrypt_file_short.
  - left. by eapply decrypt_file_partial_block.
  - right. left. repeat split; [lia|]. eapply decrypt_file_bare_iv; [done..|lia].
  - right. right. split; [done|]. exists n. split; [done|].
    destruct (open_for_writing w (str_replace path ".enc" ".dec")) as [e|] eqn:Ho.
    + right. exists e, (add_block_calls (S n) w).
      split; [by eapply decrypt_file_blocked | by eapply open_for_writing_Some].
    + left.
      destruct (decrypt_file_some_blocks path k env n w Hf Hk Hn Ho) as (plain & _ & Hd).
      by eexists _, _.
Qed.

End DecryptCases.

(** C10. [unpad] never refuses a non-empty buffer: it returns the buffer
    without its last [p] bytes, [p] being the value of the final byte, and
    the empty byte string when [p] is 0 or exceeds the length of the buffer.
    Only the empty buffer makes it raise, with [IndexError]; under a usable
    key that is the case of an envelope of exactly 16 bytes. *)
Theorem unpad_total_on_nonempty `{BC : AES.BlockCipher} :
  (∀ buf : bytes, buf ≠ [] →
     ∃ b out,
       last buf = Some b ∧ unpad buf = Ok out ∧
       (1 ≤ Byte.to_nat b ≤ length buf →
          out = take (length buf - Byte.to_nat b) buf ∧
          ∃ removed, buf = out ++ removed ∧ length removed = Byte.to_nat b) ∧
       (Byte.to_nat b = 0 ∨ length buf < Byte.to_nat b → out = [])) ∧
  (∀ (buf : bytes) e, unpad buf = Raise e ↔ buf = [] ∧ e = IndexError) ∧
  (∀ (w : world) path (k env : bytes),
     fs w !! path = Some env → AES.key_ok k = true →
     (fst (decrypt_file path k w) = Raise IndexError ↔ length env = 16)).
Proof.
  split; [|split].
  - intros buf [b Hb]%last_nonempty. eexists b, _.
    split; [done|]. split; [by apply unpad_last_nat|]. split.
    + intros [H1 Hn].
      replace (Byte.to_nat b =? 0) with false by (symmetry; apply Nat.eqb_neq; lia).
      split; [done|]. exists (drop (length buf - Byte.to_nat b) buf).
      split; [symmetry; apply take_drop|]. rewrite length_drop. lia.
    + intros [H0|Hgt].
      * by rewrite H0.
      * destruct (Byte.to_nat b =? 0); [done|].
        by replace (length buf - Byte.to_nat b) with 0 by lia.
  - apply unpad_Raise.
  - intros w path k env Hf Hk. split.
    + destruct (decrypt_file_cases path k env w Hf)
        as [Hd|[(_ & Hl & _)|(_ & n & _ & [(out & w' & Hd)|(e & w' & Hd & He)])]];
        [|done|..]; rewrite Hd; [done..|].
      destruct He as [-> | ->]; done.
    + intros Hl. by rewrite (decrypt_file_bare_iv path k env w Hf Hk Hl).
Qed.

Lemma unpad_total_on_nonempty_witness :
  fst (decrypt_file (H := Fixture.rev_cipher) "empty.enc" Fixture.key32 Fixture.w_bare_iv)
  = Raise IndexError.
Proof.
  apply (proj2 (proj2 (unpad_total_on_nonempty (BC := Fixture.rev_cipher)))
           Fixture.w_bare_iv "empty.enc" Fixture.key32 Fixture.block16);
    reflexivity.
Defined.

(** ** Encryption and the envelope *)

Section EncryptFacts.
Import AES.
Context `{BlockCipher}.

(** [encrypt_file] succeeds only on an existing file and a usable key. *)
Lemma encrypt_file_Ok_inv (path : string) (k : bytes) (w w' : world) (out : string) :
  encrypt_file path k w = (Ok out, w') →
  key_ok k = true ∧ ∃ data, fs w !! path = Some data.
Proof.
  unfold encrypt_file, bind at 1, read_file.
  destruct (fs w !! path) as [data|]; [|done].
  destruct (pad_eq data) as (b & _ & Hp).
  rewrite (bind_lift_Ok _ _ _ _ Hp).
  destruct (key_ok k) eqn:Hk; [by eauto|].
  by rewrite (bind_Raise _ _ _ _ _ (new_bad_key _ _ _ Hk)).
Qed.

Lemma encrypt_file_missing (path : string) (k : bytes) (w : world) :
  fs w !! path = None → encrypt_file path k w = (Raise FileNotFoundError, w).
Proof.
  intros Hf. unfold encrypt_file.
  by rewrite (bind_Raise _ _ _ _ _ (read_file_None _ _ Hf)).
Qed.

Lemma lookup_written (path : string) (data : bytes) (w : world) :
  fs (set_fs (insert path data) w) !! path = Some data.
Proof. apply lookup_insert_eq. Qed.

Lemma envelope_length (k iv0 padded : bytes) (n : nat) :
  key_ok k = true → length iv0 = block_size → length padded = n * block_size →
  length (iv0 ++ cbc_encrypt n k iv0 padded) = 16 + n * 16.
Proof.
  intros Hk Hi Hp. rewrite length_app, cbc_encrypt_length by done.
  rewrite Hi. reflexivity.
Qed.

(** The envelope of [P] under [k] and [iv0] decrypts to [P], wherever it
    is stored. *)
Lemma envelope_decrypts (k iv0 P padded : bytes) :
  key_ok k = true → length iv0 = block_size → pad P = Ok padded →
  let env := iv0 ++ cbc_encrypt (S (length P `div` 16)) k iv0 padded in
  length env = 16 + S (length P `div` 16) * 16
  ∧ decrypted_buffer k env = padded
  ∧ unpad (decrypted_buffer k env) = Ok P.
Proof.
  intros Hk Hiv Hpad env.
  pose proof (pad_length _ _ Hpad) as Hpl.
  set (n := S (length P `div` 16)) in *.
  assert (length (cbc_encrypt n k iv0 padded) = n * block_size) as Hct
    by (by apply cbc_encrypt_length).
  assert (length env = 16 + n * 16) as Hel
    by (unfold env; rewrite length_app, Hiv, Hct; reflexivity).
  assert (decrypted_buffer k env = padded) as Hbuf.
  { unfold decrypted_buffer.
    replace ((length env - 16) `div` 16) with n
      by (rewrite Hel, Nat.add_comm, Nat.add_sub; symmetry; by apply Nat.div_mul).
    unfold env. rewrite take_app_length', drop_app_length' by done.
    by apply cbc_decrypt_encrypt. }
  split; [done|]. split; [done|]. rewrite Hbuf. by eapply unpad_pad.
Qed.

End EncryptFacts.

(** ** The file operations, every case *)

Section FileCases.
Import AES.
Context `{BlockCipher}.

(** Every way [encrypt_file] can end. *)
Lemma encrypt_file_cases (path : string) (k : bytes) (w : world) :
  (fs w !! path = None
   ∧ encrypt_file path k w = (Raise FileNotFoundError, w))
  ∨ (∃ data, fs w !! path = Some data ∧ key_ok k = false
     ∧ encrypt_file path k w = (Raise ValueError, w))
  ∨ (∃ data padded, fs w !! path = Some data ∧ key_ok k = true
     ∧ pad data = Ok padded
     ∧ encrypt_file path k w =
         (Ok (path +:+ ".enc"),
          set_fs (insert (path +:+ ".enc")
                    (fresh_iv w
                       ++ cbc_encrypt (S (length data `div` 16)) k (fresh_iv w) padded))
            (add_block_calls (S (length data `div` 16))
               (set_cursor (cursor w + block_size) w)))).
Proof.
  destruct (fs w !! path) as [data|] eqn:Hf.
  - right. destruct (key_ok k) eqn:Hk.
    + right. destruct (encrypt_file_Ok path k data w Hk Hf)
        as (padded & n & Hpad & -> & Henc).
      by exists data, padded.
    + left. exists data. repeat split; try done.
      unfold encrypt_file.
      rewrite (bind_Ok _ _ _ _ _ (read_file_Some _ _ _ Hf)).
      destruct (pad_eq data) as (b & _ & Hp).
      rewrite (bind_lift_Ok _ _ _ _ Hp).
      by rewrite (bind_Raise _ _ _ _ _ (new_bad_key _ _ _ Hk)).
  - left. split; [done|]. by apply encrypt_file_missing.
Qed.

(** Every way [decrypt_file] can end. *)
Lemma decrypt_file_all_cases (path : string) (k : bytes) (w : world) :
  (fs w !! path = None
   ∧ decrypt_file path k w = (Raise FileNotFoundError, w))
  ∨ (∃ env, fs w !! path = Some env
     ∧ (key_ok k = false ∨ length env < 16
        ∨ (16 ≤ length env ∧ (length env - 16) `mod` 16 ≠ 0))
     ∧ decrypt_file path k w = (Raise ValueError, w))
  ∨ (∃ env, fs w !! path = Some env ∧ key_ok k = true ∧ length env = 16
     ∧ decrypt_file path k w = (Raise IndexError, w))
  ∨ (∃ env n plain, fs w !! path = Some env ∧ key_ok k = true
     ∧ length env = 16 + S n * 16
     ∧ unpad (decrypted_buffer k env) = Ok plain
     ∧ open_for_writing w (str_replace path ".enc" ".dec") = None
     ∧ decrypt_file path k w =
         (Ok (str_replace path ".enc" ".dec"),
          set_fs (insert (str_replace path ".enc" ".dec") plain)
            (add_block_calls (S n) w)))
  ∨ (∃ env n e, fs w !! path = Some env ∧ key_ok k = true
     ∧ length env = 16 + S n * 16
     ∧ open_for_writing w (str_replace path ".enc" ".dec") = Some e
     ∧ decrypt_file path k w = (Raise e, add_block_calls (S n) w)).
Proof.
  destruct (fs w !! path) as [env|] eqn:Hf.
  - right. destruct (key_ok k) eqn:Hk.
    + destruct (envelope_cases env) as [Hs|[[Hge Hm]|[[|n] Hn]]].
      * left. exists env. repeat split; [auto|]. by eapply decrypt_file_short.
      * left. exists env. repeat split; [auto|]. by eapply decrypt_file_partial_block.
      * right. left. exists env. repeat split; [lia|].
        eapply decrypt_file_bare_iv; [done..|lia].
      * right. right.
        destruct (open_for_writing w (str_replace path ".enc" ".dec")) as [e|] eqn:Ho.
        -- right. exists env, n, e. repeat split; try done.
           by eapply decrypt_file_blocked.
        -- left.
           destruct (decrypt_file_some_blocks path k env n w Hf Hk Hn Ho)
             as (plain & Hplain & Hd).
           by exists env, n, plain.
    + left. exists env. repeat split; [auto|]. by eapply decrypt_file_bad_key.
  - left. split; [done|]. by apply decrypt_file_missing.
Qed.

Lemma enc_path_not_self (path : string) : path +:+ ".enc" ≠ path.
Proof.
  intros E. apply (f_equal String.length) in E.
  rewrite length_append in E. simpl in E. lia.
Qed.

(** What [unpad] returns is a proper prefix of what it was given. *)
Lemma unpad_Ok_prefix (buf out : bytes) :
  unpad buf = Ok out → out `prefix_of` buf ∧ length out < length buf.
Proof.
  intros Hu. destruct (last buf) as [b|] eqn:Hl.
  - rewrite (unpad_last_nat _ _ Hl) in Hu. injection Hu as <-.
    assert (0 < length buf) as Hpos.
    { destruct buf; [done | simpl; lia]. }
    destruct (Byte.to_nat b =? 0) eqn:E.
    + split; [apply prefix_nil | done].
    + apply Nat.eqb_neq in E. split; [apply prefix_take|].
      rewrite length_take. lia.
  - apply last_None in Hl. subst buf. discriminate Hu.
Qed.

End FileCases.

(** C1. For every byte sequence [P] (the empty one and those of a length
    that is a multiple of 16 included) and every 32-byte key [K]:
    encrypting the file that holds [P] under [K] succeeds and writes an
    envelope; decrypting that envelope under the same [K], from whatever
    file holds it and whatever else the file system holds, writes exactly
    [P] to the output file and changes no other file, provided the output
    file can be opened. For the file [encrypt_file] has just written that
    is always so when [.enc] does not occur in the name of the plaintext
    file. *)
Theorem roundtrip `{BC : AES.BlockCipher}
    (w : world) (filepath : string) (K P : bytes) :
  length K = 32 → fs w !! filepath = Some P →
  ∃ (w1 : world) (envelope : bytes),
    encrypt_file filepath K w = (Ok (filepath +:+ ".enc"), w1) ∧
    fs w1 = <[filepath +:+ ".enc" := envelope]> (fs w) ∧
    (∀ (w' : world) (path' : string),
       fs w' !! path' = Some envelope →
       open_for_writing w' (str_replace path' ".enc" ".dec") = None →
       decrypt_file path' K w' =
         (Ok (str_replace path' ".enc" ".dec"),
          set_fs (insert (str_replace path' ".enc" ".dec") P)
            (add_block_calls (S (length P `div` 16)) w'))) ∧
    ((∀ a b, filepath ≠ a +:+ ".enc" +:+ b) →
       decrypt_file (filepath +:+ ".enc") K w1 =
         (Ok (filepath +:+ ".dec"),
          set_fs (insert (filepath +:+ ".dec") P)
            (add_block_calls (S (length P `div` 16)) w1))).
Proof.
  intros HK Hf.
  assert (AES.key_ok K = true) as Hk by (apply key_ok_length; auto).
  destruct (encrypt_file_Ok filepath K P w Hk Hf) as (padded & n & Hpad & -> & Henc).
  pose proof (fresh_iv_length w) as Hiv.
  destruct (envelope_decrypts K (fresh_iv w) P padded Hk Hiv Hpad) as (Hlen & _ & Hun).
  remember (fresh_iv w ++ AES.cbc_encrypt (S (length P `div` 16)) K (fresh_iv w) padded)
    as envelope eqn:Henv.
  assert (∀ (w' : world) (path' : string),
            fs w' !! path' = Some envelope →
            open_for_writing w' (str_replace path' ".enc" ".dec") = None →
            decrypt_file path' K w' =
              (Ok (str_replace path' ".enc" ".dec"),
               set_fs (insert (str_replace path' ".enc" ".dec") P)
                 (add_block_calls (S (length P `div` 16)) w'))) as Hdec.
  { intros w' path' Hf' Ho.
    destruct (decrypt_file_some_blocks path' K envelope (length P `div` 16) w' Hf' Hk Hlen Ho)
      as (plain & Hplain & Hd).
    rewrite Hun in Hplain. by injection Hplain as <-. }
  eexists _, envelope. split; [exact Henc|]. split; [reflexivity|].
  split; [exact Hdec|].
  intros Habs.
  assert (str_replace (filepath +:+ ".enc") ".enc" ".dec" = filepath +:+ ".dec") as Hout
    by (by rewrite str_replace_enc_suffix, str_replace_enc_absent).
  rewrite <- Hout. apply Hdec; [apply lookup_written|].
  rewrite Hout.
  apply (open_for_writing_beside _ (filepath +:+ ".enc") _ envelope);
    [apply lookup_written | by rewrite dirs_above_dec, dirs_above_enc].
Qed.

Lemma roundtrip_witness :
  let w1 := snd (encrypt_file (H := Fixture.rev_cipher)
                   "hello.txt" Fixture.key32 Fixture.w_hello) in
  decrypt_file (H := Fixture.rev_cipher) "hello.txt.enc" Fixture.key32 w1
  = (Ok "hello.txt.dec",
     set_fs (insert "hello.txt.dec" Fixture.hello) (add_block_calls 1 w1)).
Proof.
  intros w1.
  destruct (roundtrip (BC := Fixture.rev_cipher)
              Fixture.w_hello "hello.txt" Fixture.key32 Fixture.hello eq_refl eq_refl)
    as (w1' & envelope & Henc & Hfs & Hdec & _).
  assert (w1' = w1) as -> by (unfold w1; by rewrite Henc).
  apply (Hdec w1 "hello.txt.enc"); [|reflexivity].
  rewrite Hfs. apply lookup_insert_eq.
Defined.

(** C8. Every envelope written by a successful [encrypt_file] is a 16-byte
    IV followed by the ciphertext: its length is at least 16 and its length
    minus 16 is a multiple of 16. A 5-byte plaintext gives a 32-byte
    envelope, a 16-byte plaintext a 48-byte one. *)
Theorem envelope_shape `{BC : AES.BlockCipher}
    (w w' : world) (filepath out : string) (K : bytes) :
  encrypt_file filepath K w = (Ok out, w') →
  ∃ (P padded envelope : bytes),
    fs w !! filepath = Some P ∧
    pad P = Ok padded ∧
    fs w' !! out = Some envelope ∧
    envelope
      = fresh_iv w
          ++ AES.cbc_encrypt (S (length P `div` 16)) K (fresh_iv w) padded ∧
    length (fresh_iv w) = 16 ∧
    16 ≤ length envelope ∧
    (length envelope - 16) `mod` 16 = 0 ∧
    (length P = 5 → length envelope = 32) ∧
    (length P = 16 → length envelope = 48).
Proof.
  intros Henc.
  destruct (encrypt_file_Ok_inv _ _ _ _ _ Henc) as (Hk & P & Hf).
  destruct (encrypt_file_Ok filepath K P w Hk Hf) as (padded & n & Hpad & Hn & Henc').
  pose proof (pad_length _ _ Hpad) as Hpl. rewrite <- Hn in Hpl.
  pose proof (fresh_iv_length w) as Hiv.
  pose proof (envelope_length K (fresh_iv w) padded n Hk Hiv Hpl) as Hel.
  remember (AES.cbc_encrypt n K (fresh_iv w) padded) as ct eqn:Hct.
  remember (fresh_iv w) as iv0 eqn:Hiv0.
  remember (add_block_calls n (set_cursor (cursor w + AES.block_size) w)) as w1 eqn:Hw1.
  rewrite Henc in Henc'. injection Henc' as -> ->.
  exists P, padded, (iv0 ++ ct).
  split; [done|]. split; [done|]. split; [apply lookup_written|].
  split; [by rewrite Hct, Hn|].
  split; [done|]. rewrite Hel. split; [lia|].
  split; [by rewrite Nat.add_comm, Nat.add_sub, Nat.Div0.mod_mul|].
  split; intros HP; rewrite Hn, HP; reflexivity.
Qed.

Lemma envelope_shape_witness :
  ∃ (P padded envelope : bytes),
    fs Fixture.w_hello !! "hello.txt" = Some P ∧
    pad P = Ok padded ∧
    fs (snd (encrypt_file (H := Fixture.rev_cipher) "hello.txt" Fixture.key32 Fixture.w_hello))
      !! "hello.txt.enc" = Some envelope ∧
    envelope
      = fresh_iv Fixture.w_hello
          ++ AES.cbc_encrypt (H := Fixture.rev_cipher) (S (length P `div` 16))
               Fixture.key32 (fresh_iv Fixture.w_hello) padded ∧
    length (fresh_iv Fixture.w_hello) = 16 ∧
    16 ≤ length envelope ∧
    (length envelope - 16) `mod` 16 = 0 ∧
    (length P = 5 → length envelope = 32) ∧
    (length P = 16 → length envelope = 48).
Proof.
  apply (envelope_shape (BC := Fixture.rev_cipher) Fixture.w_hello
           (snd (encrypt_file (H := Fixture.rev_cipher) "hello.txt" Fixture.key32 Fixture.w_hello))
           "hello.txt" "hello.txt.enc" Fixture.key32).
  reflexivity.
Defined.

(** C5. An envelope of fewer than 16 bytes is refused, and so is an
    envelope whose part after the first 16 bytes is not a whole number of
    16-byte blocks; both are refused (with the [ValueError] of the cipher
    library) before any block is decrypted: the world, its count of block
    transforms included, is left as it was, and nothing is written. *)
Theorem malformed_envelope_refused `{BC : AES.BlockCipher}
    (w : world) (filepath : string) (K envelope : bytes) :
  fs w !! filepath = Some envelope →
  length envelope < 16
  ∨ (16 ≤ length envelope ∧ (length envelope - 16) `mod` 16 ≠ 0) →
  decrypt_file filepath K w = (Raise ValueError, w) ∧
  block_calls (snd (decrypt_file filepath K w)) = block_calls w ∧
  fs (snd (decrypt_file filepath K w)) = fs w.
Proof.
  intros Hf Hbad.
  assert (decrypt_file filepath K w = (Raise ValueError, w)) as Hd.
  { destruct Hbad as [Hs|[Hge Hm]].
    - by eapply decrypt_file_short.
    - by eapply decrypt_file_partial_block. }
  by rewrite Hd.
Qed.

Lemma malformed_envelope_refused_witness :
  decrypt_file (H := Fixture.rev_cipher) "hello.txt" Fixture.key32 Fixture.w_hello
    = (Raise ValueError, Fixture.w_hello) ∧
  block_calls (snd (decrypt_file (H := Fixture.rev_cipher) "hello.txt" Fixture.key32 Fixture.w_hello))
    = block_calls Fixture.w_hello ∧
  fs (snd (decrypt_file (H := Fixture.rev_cipher) "hello.txt" Fixture.key32 Fixture.w_hello))
    = fs Fixture.w_hello.
Proof.
  apply (malformed_envelope_refused (BC := Fixture.rev_cipher)
           Fixture.w_hello "hello.txt" Fixture.key32 Fixture.hello).
  - reflexivity.
  - left. simpl. lia.
Defined.

(** ** Output paths *)

Section PathFacts.
Import AES.
Context `{BlockCipher}.

Lemma encrypt_file_path (path out : string) (k : bytes) (w w' : world) :
  encrypt_file path k w = (Ok out, w') → out = path +:+ ".enc".
Proof.
  intros Henc.
  destruct (encrypt_file_Ok_inv _ _ _ _ _ Henc) as (Hk & data & Hf).
  destruct (encrypt_file_Ok path k data w Hk Hf) as (padded & n & _ & _ & Henc').
  congruence.
Qed.

Lemma decrypt_file_path (path out : string) (k : bytes) (w w' : world) :
  decrypt_file path k w = (Ok out, w') → out = str_replace path ".enc" ".dec".
Proof.
  intros Hdec. destruct (fs w !! path) as [env|] eqn:Hf.
  - destruct (decrypt_file_cases path k env w Hf)
      as [Hd|[(_ & _ & Hd)|(Hk & n & Hl & _)]]; [congruence..|].
    rewrite (decrypt_file_whole_blocks path k env (S n) w Hf Hk Hl) in Hdec.
    destruct (unpad _); [|discriminate Hdec].
    destruct (open_for_writing _ _); [discriminate Hdec | congruence].
  - rewrite (decrypt_file_missing _ _ _ Hf) in Hdec. discriminate.
Qed.

End PathFacts.

(** C6. The encrypt output path is the input path with the suffix [.enc]
    appended, as the claim says. The decrypt output path is not what the
    claim says: the program replaces every occurrence of [.enc] in the
    whole path instead of the suffix. Decrypting [notes.txt], whose name
    has no [.enc], writes over [notes.txt] itself and not to
    [notes.txt.dec]; an inner [.enc] is rewritten too; and for an envelope
    in the directory [vault.enc] the output path lies in [vault.dec], which
    does not exist, so that nothing is written and the action reports a
    missing key. *)
Theorem decrypt_output_path_not_suffix_rule :
  fst (encrypt_file (H := Fixture.rev_cipher) "hello.txt" Fixture.key32 Fixture.w_hello)
    = Ok "hello.txt.enc" ∧
  fst (decrypt_file (H := Fixture.rev_cipher) "notes.txt" Fixture.key16 Fixture.w_key16)
    = Ok "notes.txt" ∧
  spec_decrypt_path "notes.txt" = "notes.txt.dec" ∧
  fs Fixture.w_key16 !! "notes.txt" = Some (Fixture.block16 ++ Fixture.block16) ∧
  fs (snd (decrypt_file (H := Fixture.rev_cipher) "notes.txt" Fixture.key16 Fixture.w_key16))
    !! "notes.txt" = Some [x0f] ∧
  str_replace "a.enc.txt.enc" ".enc" ".dec" = "a.dec.txt.dec" ∧
  spec_decrypt_path "a.enc.txt.enc" = "a.enc.txt.dec" ∧
  str_replace "vault.enc/notes.txt.enc" ".enc" ".dec" = "vault.dec/notes.txt.dec" ∧
  spec_decrypt_path "vault.enc/notes.txt.enc" = "vault.enc/notes.txt.dec" ∧
  decrypt_file (H := Fixture.rev_cipher) "vault.enc/notes.txt.enc" Fixture.key32
    Fixture.w_vault
    = (Raise FileNotFoundError, add_block_calls 1 Fixture.w_vault) ∧
  select_file_decrypt (H := Fixture.rev_cipher) "vault.enc/notes.txt.enc" Fixture.w_vault
    = (Ok tt, add_shown key_not_found (add_block_calls 1 Fixture.w_vault)).
Proof. repeat split; reflexivity. Qed.

(** ** The two actions *)

Section ActionFacts.
Import AES.
Context `{BlockCipher}.

Lemma select_file_decrypt_no_key (file_path : string) (w : world) :
  truthy file_path = true → fs w !! "key.bin" = None →
  select_file_decrypt file_path w = (Ok tt, add_shown key_not_found w).
Proof.
  intros Ht Hk. unfold select_file_decrypt, try_except. rewrite Ht.
  by rewrite (bind_Raise _ _ _ _ _ (read_file_None _ _ Hk)).
Qed.

(** The key read from [key.bin] goes to [decrypt_file] as it is; of the
    failures only [FileNotFoundError] is handled. *)
Lemma select_file_decrypt_with_key (file_path : string) (k : bytes) (w : world) :
  truthy file_path = true → fs w !! "key.bin" = Some k →
  select_file_decrypt file_path w =
    match decrypt_file file_path k w with
    | (Ok output, w') => (Ok tt, add_shown (decrypted_message output) w')
    | (Raise FileNotFoundError, w') => (Ok tt, add_shown key_not_found w')
    | (Raise e, w') => (Raise e, w')
    end.
Proof.
  intros Ht Hk. unfold select_file_decrypt, try_except. rewrite Ht.
  rewrite (bind_Ok _ _ _ _ _ (read_file_Some _ _ _ Hk)).
  unfold bind. destruct (decrypt_file file_path k w) as [[output|[]] w']; reflexivity.
Qed.

Lemma fresh_key_length (w : world) : length (fresh_key w) = 32.
Proof. unfold fresh_key, next_random. by rewrite length_map, length_seq. Qed.

Lemma select_file_encrypt_unfold (file_path : string) (w : world) :
  truthy file_path = true →
  select_file_encrypt file_path w =
    match encrypt_file file_path (fresh_key w) (key_stored w) with
    | (Ok output, w') => (Ok tt, add_shown (encrypted_message output) w')
    | (Raise e, w') => (Raise e, w')
    end.
Proof.
  intros Ht. unfold select_file_encrypt. rewrite Ht.
  unfold bind at 1, get_random_bytes. unfold bind at 1, write_file.
  change (open_for_writing (set_cursor (cursor w + 32) w) "key.bin") with (@None exn).
  fold (next_random w 32). fold (fresh_key w).
  unfold bind.
  change (set_fs <["key.bin":=fresh_key w]> (set_cursor (cursor w + 32) w))
    with (key_stored w).
  destruct (encrypt_file file_path (fresh_key w) (key_stored w)) as [[output|e] w'];
    reflexivity.
Qed.

Lemma enc_path_not_key_file (path : string) : path +:+ ".enc" ≠ "key.bin".
Proof.
  intros E. assert (String.length path = 3) as Hl.
  { apply (f_equal String.length) in E. rewrite length_append in E. simpl in E. lia. }
  destruct path as [|c1 [|c2 [|c3 [|c4 path]]]]; try discriminate Hl.
  rewrite !append_String, append_empty_l in E. discriminate E.
Qed.

(** [encrypt_file] writes to its output path and nowhere else. *)
Lemma encrypt_file_frame (path other : string) (k : bytes) (w w' : world)
    (r : result string) :
  encrypt_file path k w = (r, w') → other ≠ path +:+ ".enc" →
  fs w' !! other = fs w !! other.
Proof.
  intros Henc Hne. destruct (fs w !! path) as [data|] eqn:Hf.
  - destruct (key_ok k) eqn:Hk.
    + destruct (encrypt_file_Ok path k data w Hk Hf) as (padded & n & _ & _ & Henc').
      rewrite Henc in Henc'. injection Henc' as _ ->.
      by apply lookup_insert_ne.
    + unfold encrypt_file in Henc.
      rewrite (bind_Ok _ _ _ _ _ (read_file_Some _ _ _ Hf)) in Henc.
      destruct (pad_eq data) as (b & _ & Hp).
      rewrite (bind_lift_Ok _ _ _ _ Hp) in Henc.
      rewrite (bind_Raise _ _ _ _ _ (new_bad_key _ _ _ Hk)) in Henc.
      by injection Henc as _ <-.
  - rewrite (encrypt_file_missing _ _ _ Hf) in Henc. by injection Henc as _ <-.
Qed.

Lemma select_file_encrypt_stores_key (file_path : string) (w w' : world)
    (r : result unit) :
  truthy file_path = true → select_file_encrypt file_path w = (r, w') →
  fs w' !! "key.bin" = Some (fresh_key w).
Proof.
  intros Ht. rewrite (select_file_encrypt_unfold _ _ Ht).
  destruct (encrypt_file file_path (fresh_key w) (key_stored w))
    as [r' w1] eqn:Henc.
  assert (fs w1 !! "key.bin" = Some (fresh_key w)) as Hk.
  { rewrite (encrypt_file_frame _ "key.bin" _ _ _ _ Henc).
    - apply lookup_insert_eq.
    - intros E. by apply (enc_path_not_key_file file_path). }
  destruct r' as [output|e]; by intros [= _ <-].
Qed.

End ActionFacts.




(** C4, as the program has it. The key file is read whole and its bytes go
    to [decrypt_file] as they are, neither truncated nor padded; nothing in
    the program checks for 32 bytes. When the selected file exists, the
    decrypt action fails, with the uncaught [ValueError] of the cipher
    construction and before anything is decrypted or written, whenever the
    key file has none of the lengths 16, 24 and 32; when the selected file
    does not exist, that is what is reported, whatever the key. A key file
    of 16, 24 or 32 bytes is used: on an envelope of an IV and at least one
    whole block, with an output file that can be opened, the action writes
    the decrypted file and reports success. *)
Theorem key_length_checked_by_cipher `{BC : AES.BlockCipher}
    (w : world) (file_path : string) (k : bytes) :
  truthy file_path = true →
  fs w !! "key.bin" = Some k →
  select_file_decrypt file_path w =
    match decrypt_file file_path k w with
    | (Ok output, w') => (Ok tt, add_shown (decrypted_message output) w')
    | (Raise FileNotFoundError, w') => (Ok tt, add_shown key_not_found w')
    | (Raise e, w') => (Raise e, w')
    end ∧
  (∀ env, fs w !! file_path = Some env →
     length k ≠ 16 ∧ length k ≠ 24 ∧ length k ≠ 32 →
     select_file_decrypt file_path w = (Raise ValueError, w)) ∧
  (fs w !! file_path = None →
     select_file_decrypt file_path w = (Ok tt, add_shown key_not_found w)) ∧
  (∀ env n, fs w !! file_path = Some env →
     length k = 16 ∨ length k = 24 ∨ length k = 32 →
     length env = 16 + S n * 16 →
     open_for_writing w (str_replace file_path ".enc" ".dec") = None →
     ∃ plain,
       unpad (decrypted_buffer k env) = Ok plain ∧
       select_file_decrypt file_path w =
         (Ok tt,
          add_shown (decrypted_message (str_replace file_path ".enc" ".dec"))
            (set_fs (insert (str_replace file_path ".enc" ".dec") plain)
               (add_block_calls (S n) w)))).
Proof.
  intros Ht Hk. rewrite (select_file_decrypt_with_key _ k _ Ht Hk).
  split; [done|]. split; [|split].
  - intros env Hf Hbad.
    assert (AES.key_ok k = false) as Hbk.
    { destruct (AES.key_ok k) eqn:E; [|done]. apply key_ok_length in E. lia. }
    by rewrite (decrypt_file_bad_key _ _ _ _ Hf Hbk).
  - intros Hf. by rewrite (decrypt_file_missing _ _ _ Hf).
  - intros env n Hf Hok%key_ok_length Hl Ho.
    destruct (decrypt_file_some_blocks file_path k env n w Hf Hok Hl Ho)
      as (plain & Hplain & Hdec).
    exists plain. split; [done|]. by rewrite Hdec.
Qed.

Lemma key_length_checked_by_cipher_witness :
  ∃ plain,
    unpad (decrypted_buffer (H := Fixture.rev_cipher) Fixture.key16
             (Fixture.block16 ++ Fixture.block16)) = Ok plain ∧
    select_file_decrypt (H := Fixture.rev_cipher) "notes.txt" Fixture.w_key16 =
      (Ok tt,
       add_shown (decrypted_message (str_replace "notes.txt" ".enc" ".dec"))
         (set_fs (insert (str_replace "notes.txt" ".enc" ".dec") plain)
            (add_block_calls 1 Fixture.w_key16))).
Proof.
  destruct (key_length_checked_by_cipher (BC := Fixture.rev_cipher)
              Fixture.w_key16 "notes.txt" Fixture.key16 eq_refl eq_refl)
    as (_ & _ & _ & Hok).
  apply (Hok (Fixture.block16 ++ Fixture.block16) 0);
    [reflexivity | left; reflexivity | reflexivity | reflexivity].
Defined.

(** C4 fails as stated: with a key file of 16 bytes the decrypt action
    goes through and reports success. *)
Lemma sixteen_byte_key_accepted :
  fs Fixture.w_key16 !! "key.bin" = Some Fixture.key16 ∧
  length Fixture.key16 = 16 ∧
  fst (select_file_decrypt (H := Fixture.rev_cipher) "notes.txt" Fixture.w_key16)
    = Ok tt ∧
  shown (snd (select_file_decrypt (H := Fixture.rev_cipher) "notes.txt" Fixture.w_key16))
    = [decrypted_message "notes.txt"].
Proof. repeat split; reflexivity. Qed.

(** The encrypt action draws from the random source and never rewinds it:
    32 bytes when the selected file is missing, 48 otherwise. *)
Lemma select_file_encrypt_draws `{BC : AES.BlockCipher}
    (file_path : string) (w w' : world) (r : result unit) :
  truthy file_path = true → select_file_encrypt file_path w = (r, w') →
  entropy w' = entropy w ∧
  (cursor w' = cursor w + 32 ∨ cursor w' = cursor w + 48).
Proof.
  intros Ht. rewrite (select_file_encrypt_unfold _ _ Ht).
  destruct (encrypt_file_cases file_path (fresh_key w) (key_stored w))
    as [[_ Hc]|[(d & _ & _ & Hc)|(d & padded & _ & _ & _ & Hc)]];
    rewrite Hc; intros [= _ <-]; (split; [reflexivity|]);
    cbn [cursor key_stored set_fs set_cursor add_block_calls add_shown];
    unfold AES.block_size; lia.
Qed.

(** C9. Every encrypt action on a selected file (the action does nothing
    when the file dialog is cancelled) draws a fresh 32-byte key and writes
    it to [key.bin], whatever [key.bin] held before and however the action
    ends. The key of a second action is a new draw, taken from the random
    source after the bytes of the first, and it replaces the first in
    [key.bin]: after the second action the key of the first is in
    [key.bin] only if the random source has returned the same 32 bytes
    again. *)
Theorem key_file_overwritten `{BC : AES.BlockCipher}
    (w w1 w2 : world) (first second : string) (r1 r2 : result unit) :
  truthy first = true → truthy second = true →
  select_file_encrypt first w = (r1, w1) →
  select_file_encrypt second w1 = (r2, w2) →
  let key1 := map (entropy w) (seq (cursor w) 32) in
  let key2 := map (entropy w) (seq (cursor w1) 32) in
  length key1 = 32 ∧ length key2 = 32 ∧
  cursor w + 32 ≤ cursor w1 ∧ cursor w1 + 32 ≤ cursor w2 ∧
  entropy w1 = entropy w ∧ entropy w2 = entropy w ∧
  fs w1 !! "key.bin" = Some key1 ∧
  fs w2 !! "key.bin" = Some key2 ∧
  (fs w2 !! "key.bin" = Some key1 ↔ key2 = key1).
Proof.
  intros Ht1 Ht2 H1 H2 key1 key2.
  pose proof (select_file_encrypt_stores_key _ _ _ _ Ht1 H1) as Hk1.
  pose proof (select_file_encrypt_stores_key _ _ _ _ Ht2 H2) as Hk2.
  destruct (select_file_encrypt_draws _ _ _ _ Ht1 H1) as [He1 Hc1].
  destruct (select_file_encrypt_draws _ _ _ _ Ht2 H2) as [He2 Hc2].
  assert (fs w2 !! "key.bin" = Some key2) as Hk2'
    by (rewrite Hk2; unfold fresh_key, next_random, key2; by rewrite He1).
  assert (length key1 = 32 ∧ length key2 = 32) as [Hl1 Hl2]
    by (unfold key1, key2; by rewrite !length_map, !length_seq).
  repeat split; try done; try lia; try congruence.
Qed.

Lemma key_file_overwritten_witness :
  let w1 := snd (select_file_encrypt (H := Fixture.rev_cipher) "hello.txt" Fixture.w_hello) in
  let w2 := snd (select_file_encrypt (H := Fixture.rev_cipher) "hello.txt" w1) in
  fs w1 !! "key.bin" = Some Fixture.key32 ∧
  fs w2 !! "key.bin" = Some (map Fixture.tape (seq 48 32)) ∧
  fs w2 !! "key.bin" ≠ Some Fixture.key32.
Proof.
  intros w1 w2.
  destruct (key_file_overwritten (BC := Fixture.rev_cipher)
              Fixture.w_hello w1 w2 "hello.txt" "hello.txt" (Ok tt) (Ok tt)
              eq_refl eq_refl eq_refl eq_refl)
    as (_ & _ & _ & _ & _ & _ & Hk1 & Hk2 & Hiff).
  split; [exact Hk1|]. split; [exact Hk2|].
  intros Hsame. apply Hiff in Hsame. vm_compute in Hsame. discriminate Hsame.
Defined.

(** * Further properties of the program *)

(** ** Padding *)

(** X1. [pad] never fails, and [unpad] undoes it: stripping the padded
    buffer gives back the data, whatever its length. *)
Theorem unpad_after_pad (data : bytes) :
  ∃ padded, pad data = Ok padded ∧ unpad padded = Ok data.
Proof.
  destruct (pad_eq data) as (b & _ & Hp).
  eexists. split; [exact Hp|]. by apply unpad_pad.
Qed.

(** X2. [pad] is injective: two buffers with the same padded form are the
    same buffer, so that padding loses nothing. *)
Theorem pad_injective (a b : bytes) : pad a = pad b → a = b.
Proof.
  intros Hab.
  destruct (pad_eq a) as (x & _ & Ha). destruct (pad_eq b) as (y & _ & Hb).
  pose proof (unpad_pad _ _ Ha) as Hua. pose proof (unpad_pad _ _ Hb) as Hub.
  rewrite Ha, Hb in Hab. injection Hab as Hab. rewrite Hab in Hua. congruence.
Qed.

Lemma pad_injective_witness : Fixture.hello = [x68; x65; x6c; x6c; x6f].
Proof. apply (pad_injective Fixture.hello [x68; x65; x6c; x6c; x6f]). reflexivity. Defined.

(** X3. What [pad] returns always ends in well-formed padding: its final
    byte [p] is between 1 and 16 and its last [p] bytes all equal [p]. *)
Theorem pad_well_formed (data padded : bytes) :
  pad data = Ok padded → spec_padding_valid padded = true.
Proof.
  destruct (pad_eq data) as (b & Hb & Hp). rewrite Hp. intros [= <-].
  pose proof (padding_length_range data) as Hr.
  pose proof (to_nat_int_of_byte b) as Hn. rewrite Hb in Hn.
  set (p := Z.to_nat (padding_length data)) in *.
  assert (1 ≤ p ≤ 16) as Hp16 by lia.
  assert (last (data ++ replicate p b) = Some b) as Hl.
  { destruct p as [|p']; [lia|]. rewrite replicate_S_end, app_assoc. apply last_snoc. }
  unfold spec_padding_valid. rewrite Hl, <- Hn.
  rewrite length_app, length_replicate.
  replace (length data + p - p) with (length data) by lia.
  rewrite drop_app_length.
  repeat (apply andb_true_iff; split); try (apply Nat.leb_le; lia).
  clear. induction p as [|p IH]; [done|]. simpl.
  by rewrite (Byte.byte_dec_lb (eq_refl b)), IH.
Qed.

Lemma pad_well_formed_witness :
  spec_padding_valid
    [x68; x65; x6c; x6c; x6f; x0b; x0b; x0b; x0b; x0b; x0b; x0b; x0b; x0b; x0b; x0b]
  = true.
Proof. apply (pad_well_formed Fixture.hello). reflexivity. Defined.


(** ** Encryption *)

(** X4. A successful [encrypt_file] writes an envelope of exactly
    [16 * (len(P) // 16) + 32] bytes for a plaintext [P]: between 17 and 32
    bytes more than the plaintext. *)
Theorem envelope_overhead `{BC : AES.BlockCipher}
    (w w' : world) (filepath out : string) (K P envelope : bytes) :
  encrypt_file filepath K w = (Ok out, w') →
  fs w !! filepath = Some P → fs w' !! out = Some envelope →
  length envelope = 16 * (length P `div` 16) + 32 ∧
  length P + 17 ≤ length envelope ≤ length P + 32.
Proof.
  intros Henc HP Henv.
  destruct (encrypt_file_cases filepath K w)
    as [[_ Hc]|[(d & _ & _ & Hc)|(d & padded & Hd & Hk & Hpad & Hc)]];
    [rewrite Hc in Henc; discriminate Henc.. |].
  assert (d = P) as -> by congruence.
  pose proof (fresh_iv_length w) as Hiv.
  destruct (envelope_decrypts K (fresh_iv w) P padded Hk Hiv Hpad) as (Hlen & _ & _).
  remember (fresh_iv w ++ AES.cbc_encrypt (S (length P `div` 16)) K (fresh_iv w) padded)
    as env eqn:Henv0.
  remember (add_block_calls (S (length P `div` 16))
              (set_cursor (cursor w + AES.block_size) w)) as w0 eqn:Hw0.
  rewrite Hc in Henc. injection Henc as <- <-.
  rewrite lookup_written in Henv. injection Henv as <-.
  pose proof (Nat.div_mod_eq (length P) 16) as Hdm.
  pose proof (Nat.mod_upper_bound (length P) 16) as Hub.
  lia.
Qed.

Lemma envelope_overhead_witness :
  length (Fixture.block16 ++ rev (AES.xor_block
            [x68; x65; x6c; x6c; x6f; x0b; x0b; x0b; x0b; x0b; x0b; x0b; x0b; x0b; x0b; x0b]
            Fixture.block16))
    = 16 * (length Fixture.hello `div` 16) + 32 ∧
  length Fixture.hello + 17
  ≤ length (Fixture.block16 ++ rev (AES.xor_block
              [x68; x65; x6c; x6c; x6f; x0b; x0b; x0b; x0b; x0b; x0b; x0b; x0b; x0b; x0b; x0b]
              Fixture.block16))
  ≤ length Fixture.hello + 32.
Proof.
  apply (envelope_overhead (BC := Fixture.rev_cipher)
           (mkWorld {[ "hello.txt" := Fixture.hello ]} ∅ Fixture.tape 64 0 [])
           (snd (encrypt_file (H := Fixture.rev_cipher) "hello.txt" Fixture.key32
                   (mkWorld {[ "hello.txt" := Fixture.hello ]} ∅ Fixture.tape 64 0 [])))
           "hello.txt" "hello.txt.enc" Fixture.key32 Fixture.hello);
    reflexivity.
Defined.

(** X5. [encrypt_file] succeeds exactly when the file exists and the key
    has 16, 24 or 32 bytes. When it fails it has changed nothing: a missing
    file gives [FileNotFoundError] whatever the key, an existing file with a
    key of another length gives [ValueError]. *)
Theorem encrypt_file_outcome `{BC : AES.BlockCipher}
    (w : world) (filepath : string) (K : bytes) :
  ((∃ out w', encrypt_file filepath K w = (Ok out, w'))
   ↔ is_Some (fs w !! filepath)
     ∧ (length K = 16 ∨ length K = 24 ∨ length K = 32)) ∧
  (∀ e w', encrypt_file filepath K w = (Raise e, w') →
     w' = w ∧
     ((e = FileNotFoundError ∧ fs w !! filepath = None)
      ∨ (e = ValueError ∧ is_Some (fs w !! filepath)
         ∧ length K ≠ 16 ∧ length K ≠ 24 ∧ length K ≠ 32))).
Proof.
  destruct (encrypt_file_cases filepath K w)
    as [[Hf Hc]|[(d & Hf & Hk & Hc)|(d & padded & Hf & Hk & _ & Hc)]];
    rewrite Hc, Hf; (split; [split|]).
  - by intros (out & w' & [=]).
  - by intros [[x [=]] _].
  - intros e w' [= <- <-]. auto.
  - by intros (out & w' & [=]).
  - intros [_ Hlen%key_ok_length]. congruence.
  - intros e w' [= <- <-]. split; [done|]. right.
    repeat split; [by eexists|..]; intros E;
      assert (AES.key_ok K = true) by (apply key_ok_length; auto); congruence.
  - intros _. split; [by eexists | by apply key_ok_length].
  - intros _. by eexists _, _.
  - by intros e w' [=].
Qed.

(** X6. [encrypt_file] writes its output file and nothing else: every
    other file, the one it encrypts included, keeps its contents, and no
    message is shown. *)
Theorem encrypt_file_keeps_other_files `{BC : AES.BlockCipher}
    (w w' : world) (filepath : string) (K : bytes) (r : result string) :
  encrypt_file filepath K w = (r, w') →
  (∀ other, other ≠ filepath +:+ ".enc" → fs w' !! other = fs w !! other) ∧
  fs w' !! filepath = fs w !! filepath ∧
  shown w' = shown w.
Proof.
  intros Henc.
  assert (∀ other, other ≠ filepath +:+ ".enc" → fs w' !! other = fs w !! other)
    as Hframe by (intros other; by eapply encrypt_file_frame).
  split; [done|]. split.
  - apply Hframe. intros E. by apply (enc_path_not_self filepath).
  - destruct (encrypt_file_cases filepath K w)
      as [[_ Hc]|[(d & _ & _ & Hc)|(d & padded & _ & _ & _ & Hc)]];
      rewrite Hc in Henc; by injection Henc as _ <-.
Qed.

Lemma encrypt_file_keeps_other_files_witness :
  fs (snd (encrypt_file (H := Fixture.rev_cipher) "hello.txt" Fixture.key32 Fixture.w_hello))
    !! "hello.txt" = fs Fixture.w_hello !! "hello.txt".
Proof.
  apply (encrypt_file_keeps_other_files (BC := Fixture.rev_cipher)
           Fixture.w_hello
           (snd (encrypt_file (H := Fixture.rev_cipher) "hello.txt" Fixture.key32 Fixture.w_hello))
           "hello.txt" Fixture.key32 (Ok "hello.txt.enc")).
  reflexivity.
Defined.

(** ** Decryption *)

(** X7. A successful [decrypt_file] needs an existing file of at least 32
    bytes, a multiple of 16, and a key of 16, 24 or 32 bytes. It needs
    nothing else of the key: nothing ties the envelope to the key, and
    whether [decrypt_file] succeeds is the same for every key of a valid
    length, so that a wrong key is never detected. When it fails, no file
    has changed and no message is shown. *)
Theorem decrypt_file_outcome `{BC : AES.BlockCipher}
    (w : world) (filepath : string) (K : bytes) :
  ((∃ out w', decrypt_file filepath K w = (Ok out, w')) →
   ∃ envelope, fs w !! filepath = Some envelope
     ∧ (length K = 16 ∨ length K = 24 ∨ length K = 32)
     ∧ 32 ≤ length envelope ∧ length envelope `mod` 16 = 0) ∧
  (∀ K' : bytes,
     (length K = 16 ∨ length K = 24 ∨ length K = 32) →
     (length K' = 16 ∨ length K' = 24 ∨ length K' = 32) →
     ((∃ out w', decrypt_file filepath K w = (Ok out, w'))
      ↔ (∃ out w', decrypt_file filepath K' w = (Ok out, w')))) ∧
  (∀ e w', decrypt_file filepath K w = (Raise e, w') →
     fs w' = fs w ∧ shown w' = shown w).
Proof.
  assert (∀ k : bytes,
            (∃ out w', decrypt_file filepath k w = (Ok out, w'))
            ↔ ∃ envelope n, fs w !! filepath = Some envelope
                ∧ AES.key_ok k = true ∧ length envelope = 16 + S n * 16
                ∧ open_for_writing w (str_replace filepath ".enc" ".dec") = None)
    as Hiff.
  { intros k. split.
    - intros (out & w' & Hdec).
      destruct (decrypt_file_all_cases filepath k w)
        as [[_ Hc]|[(env & _ & _ & Hc)|[(env & _ & _ & _ & Hc)
           |[(env & n & plain & Hf & Hk & Hl & _ & Ho & Hc)
            |(env & n & e & _ & _ & _ & _ & Hc)]]]];
        rewrite Hc in Hdec; try discriminate Hdec.
      by exists env, n.
    - intros (env & n & Hf & Hk & Hl & Ho).
      destruct (decrypt_file_some_blocks filepath k env n w Hf Hk Hl Ho)
        as (plain & _ & Hd).
      by eexists _, _. }
  split; [|split].
  - intros (env & n & Hf & Hk & Hl & _)%Hiff. exists env.
    split; [done|]. split; [by apply key_ok_length|]. rewrite Hl. split; [lia|].
    replace (16 + S n * 16) with ((S (S n)) * 16) by lia.
    apply Nat.Div0.mod_mul.
  - intros K' HK%key_ok_length HK'%key_ok_length. rewrite !Hiff.
    split; intros (env & n & Hf & _ & Hl & Ho); by exists env, n.
  - intros e w' Hdec.
    destruct (decrypt_file_all_cases filepath K w)
      as [[_ Hc]|[(env & _ & _ & Hc)|[(env & _ & _ & _ & Hc)
         |[(env & n & plain & _ & _ & _ & _ & _ & Hc)
          |(env & n & e' & _ & _ & _ & _ & Hc)]]]];
      rewrite Hc in Hdec; try discriminate Hdec; by injection Hdec as _ <-.
Qed.

Lemma decrypt_file_outcome_witness :
  (∃ out w', decrypt_file (H := Fixture.rev_cipher) "notes.txt" Fixture.key16
               Fixture.w_key16 = (Ok out, w'))
  ↔ (∃ out w', decrypt_file (H := Fixture.rev_cipher) "notes.txt" Fixture.key32
                 Fixture.w_key16 = (Ok out, w')).
Proof.
  apply (proj1 (proj2 (decrypt_file_outcome (BC := Fixture.rev_cipher)
                         Fixture.w_key16 "notes.txt" Fixture.key16)) Fixture.key32);
    [left | right; right]; reflexivity.
Defined.

(** X8. A successful [decrypt_file] writes one file, at the path it
    returns, and leaves every other file as it was; what it writes is a
    proper prefix of the decrypted buffer, hence at least 17 bytes shorter
    than the envelope; it shows no message and draws no random byte. *)
Theorem decrypt_file_writes_one_file `{BC : AES.BlockCipher}
    (w w' : world) (filepath out : string) (K : bytes) :
  decrypt_file filepath K w = (Ok out, w') →
  ∃ envelope plain,
    fs w !! filepath = Some envelope ∧
    fs w' = <[out := plain]> (fs w) ∧
    unpad (decrypted_buffer K envelope) = Ok plain ∧
    plain `prefix_of` decrypted_buffer K envelope ∧
    length plain + 17 ≤ length envelope ∧
    shown w' = shown w ∧ cursor w' = cursor w.
Proof.
  intros Hdec.
  destruct (decrypt_file_all_cases filepath K w)
    as [[_ Hc]|[(env & _ & _ & Hc)|[(env & _ & _ & _ & Hc)
       |[(env & n & plain & Hf & Hk & Hl & Hplain & _ & Hc)
        |(env & n & e & _ & _ & _ & _ & Hc)]]]];
    rewrite Hc in Hdec; try discriminate Hdec.
  injection Hdec as <- <-. exists env, plain.
  destruct (unpad_Ok_prefix _ _ Hplain) as [Hpre Hlt].
  rewrite (decrypted_buffer_length K env (S n) Hk Hl) in Hlt.
  repeat split; try done. lia.
Qed.

Lemma decrypt_file_writes_one_file_witness :
  ∃ envelope plain,
    fs Fixture.w_key16 !! "notes.txt" = Some envelope ∧
    fs (snd (decrypt_file (H := Fixture.rev_cipher) "notes.txt" Fixture.key16 Fixture.w_key16))
      = <["notes.txt" := plain]> (fs Fixture.w_key16) ∧
    unpad (decrypted_buffer (H := Fixture.rev_cipher) Fixture.key16 envelope) = Ok plain ∧
    plain `prefix_of` decrypted_buffer (H := Fixture.rev_cipher) Fixture.key16 envelope ∧
    length plain + 17 ≤ length envelope ∧
    shown (snd (decrypt_file (H := Fixture.rev_cipher) "notes.txt" Fixture.key16 Fixture.w_key16))
      = shown Fixture.w_key16 ∧
    cursor (snd (decrypt_file (H := Fixture.rev_cipher) "notes.txt" Fixture.key16 Fixture.w_key16))
      = cursor Fixture.w_key16.
Proof.
  apply (decrypt_file_writes_one_file (BC := Fixture.rev_cipher)
           Fixture.w_key16
           (snd (decrypt_file (H := Fixture.rev_cipher) "notes.txt" Fixture.key16 Fixture.w_key16))
           "notes.txt" "notes.txt" Fixture.key16).
  reflexivity.
Defined.

(** ** Where the decrypted file goes *)

Section ReplaceMore.

(** Where [.enc] occurs, the scan changes the string. *)
Lemma replace_scan_present (fuel : nat) (s a b : string) :
  String.length s ≤ fuel → s = a +:+ ".enc" +:+ b →
  replace_scan fuel ".enc" ".dec" s ≠ s.
Proof.
  revert s a. induction fuel as [|fuel IH]; intros s a Hl Hs.
  - subst s. rewrite !length_append in Hl. simpl in Hl. lia.
  - destruct s as [|c s].
    { destruct a; discriminate Hs. }
    cbn [replace_scan]. destruct (String.prefix ".enc" (String c s)) eqn:Hp.
    + apply prefix_split in Hp. rewrite Hp at 2.
      rewrite !append_String, append_empty_l. discriminate.
    + destruct a as [|c' a].
      * rewrite append_empty_l in Hs. rewrite Hs, prefix_append in Hp. discriminate Hp.
      * rewrite append_String in Hs. injection Hs as Hc Hs. subst c'.
        intros [= E]. revert E. apply (IH s a); [simpl in Hl; lia | done].
Qed.

(** A string in which the scan has left [enc] in front had it in front. *)
Lemma replace_scan_enc_in_front (fuel : nat) (s : string) :
  String.prefix "enc" (replace_scan fuel ".enc" ".dec" s) = true →
  String.prefix "enc" s = true.
Proof.
  assert (∀ (t : string) fuel s,
            (t = "enc" ∨ t = "nc" ∨ t = "c") →
            String.prefix t (replace_scan fuel ".enc" ".dec" s) = true →
            String.prefix t s = true) as Hgen; [|by apply Hgen; left].
  clear. intros t fuel. revert t.
  induction fuel as [|fuel IH]; intros t s Ht; [done|].
  destruct s as [|c s]; [done|]. cbn [replace_scan].
  destruct (String.prefix ".enc" (String c s)) eqn:Hp.
  - rewrite append_String.
    destruct Ht as [-> | [-> | ->]]; cbn [String.prefix];
      destruct (ascii_dec _ _); done.
  - destruct Ht as [-> | [-> | ->]]; cbn [String.prefix];
      destruct (ascii_dec _ c); try done.
    + apply IH. auto.
    + apply IH. auto.
    + intros _. by destruct s.
Qed.

(** The scan leaves no occurrence of [.enc]. *)
Lemma replace_scan_clean (fuel : nat) (s a b : string) :
  String.length s ≤ fuel →
  replace_scan fuel ".enc" ".dec" s ≠ a +:+ ".enc" +:+ b.
Proof.
  revert s a. induction fuel as [|fuel IH]; intros s a Hl.
  - destruct s; [|simpl in Hl; lia]. simpl. intros E.
    apply (f_equal String.length) in E. rewrite !length_append in E.
    simpl in E. lia.
  - destruct s as [|c s].
    { simpl. intros E. apply (f_equal String.length) in E.
      rewrite !length_append in E. simpl in E. lia. }
    cbn [replace_scan]. destruct (String.prefix ".enc" (String c s)) eqn:Hp.
    + pose proof (prefix_split _ _ Hp) as Hs.
      assert (String.length (str_drop (String.length ".enc") (String c s)) ≤ fuel) as Hl'
        by (rewrite str_drop_length; simpl in *; lia).
      rewrite !append_String, append_empty_l.
      destruct a as [|a0 [|a1 [|a2 [|a3 a]]]];
        rewrite ?append_String, ?append_empty_l; try discriminate.
      intros [= _ _ _ _ E]. revert E. by apply IH.
    + destruct a as [|a0 a]; rewrite ?append_String, ?append_empty_l.
      * intros [= Hc E]. subst c.
        assert (String.prefix "enc" (replace_scan fuel ".enc" ".dec" s) = true) as Hq
          by (rewrite E; apply (prefix_append "enc" b)).
        apply replace_scan_enc_in_front in Hq.
        cbn [String.prefix] in Hp. destruct (ascii_dec "." "."); [|done].
        cbn [String.prefix] in Hq. destruct s as [|c1 s]; [done|].
        congruence.
      * intros [= _ E]. revert E. apply IH. simpl in Hl. lia.
Qed.

Lemma str_replace_enc_present (path a b : string) :
  path = a +:+ ".enc" +:+ b → str_replace path ".enc" ".dec" ≠ path.
Proof. intros Hp. by apply (replace_scan_present _ _ a b). Qed.

Lemma str_replace_enc_clean (path a b : string) :
  str_replace path ".enc" ".dec" ≠ a +:+ ".enc" +:+ b.
Proof. by apply replace_scan_clean. Qed.

End ReplaceMore.

Lemma decrypt_file_writes_one_file_aux `{BC : AES.BlockCipher}
    (filepath out : string) (K : bytes) (w w' : world) :
  decrypt_file filepath K w = (Ok out, w') →
  ∃ envelope plain,
    fs w !! filepath = Some envelope ∧
    fs w' = <[out := plain]> (fs w) ∧
    length plain + 17 ≤ length envelope.
Proof.
  intros Hdec.
  destruct (decrypt_file_all_cases filepath K w)
    as [[_ Hc]|[(env & _ & _ & Hc)|[(env & _ & _ & _ & Hc)
       |[(env & n & plain & Hf & Hk & Hl & Hplain & _ & Hc)
        |(env & n & e & _ & _ & _ & _ & Hc)]]]];
    rewrite Hc in Hdec; try discriminate Hdec.
  injection Hdec as <- <-. exists env, plain.
  destruct (unpad_Ok_prefix _ _ Hplain) as [_ Hlt].
  rewrite (decrypted_buffer_length K env (S n) Hk Hl) in Hlt.
  repeat split; try done. lia.
Qed.

(** X9. A successful [decrypt_file] writes over the very file it has
    read exactly when [.enc] does not occur in the path; the envelope is
    then replaced by the plaintext. When [.enc] occurs in the path, the
    envelope is left in place. *)
Theorem decrypt_overwrites_input_iff `{BC : AES.BlockCipher}
    (w w' : world) (filepath out : string) (K : bytes) :
  decrypt_file filepath K w = (Ok out, w') →
  (out = filepath ↔ ∀ a b, filepath ≠ a +:+ ".enc" +:+ b) ∧
  (out ≠ filepath → fs w' !! filepath = fs w !! filepath) ∧
  (out = filepath → fs w' !! filepath ≠ fs w !! filepath).
Proof.
  intros Hdec.
  pose proof (decrypt_file_path _ _ _ _ _ Hdec) as Hout.
  destruct (decrypt_file_writes_one_file_aux filepath out K w w' Hdec)
    as (env & plain & Hf & Hfs & Hlen).
  split; [|split].
  - rewrite Hout. split.
    + intros E a b Hp. by apply (str_replace_enc_present filepath a b).
    + apply str_replace_enc_absent.
  - intros Hne. rewrite Hfs. by apply lookup_insert_ne.
  - intros ->. rewrite Hfs, lookup_insert_eq, Hf. intros [= E].
    rewrite E in Hlen. lia.
Qed.

Lemma decrypt_overwrites_input_iff_witness :
  ("notes.txt" = "notes.txt" ↔ ∀ a b, "notes.txt" ≠ a +:+ ".enc" +:+ b) ∧
  ("notes.txt" ≠ "notes.txt" →
     fs (snd (decrypt_file (H := Fixture.rev_cipher) "notes.txt" Fixture.key16 Fixture.w_key16))
       !! "notes.txt" = fs Fixture.w_key16 !! "notes.txt") ∧
  ("notes.txt" = "notes.txt" →
     fs (snd (decrypt_file (H := Fixture.rev_cipher) "notes.txt" Fixture.key16 Fixture.w_key16))
       !! "notes.txt" ≠ fs Fixture.w_key16 !! "notes.txt").
Proof.
  apply (decrypt_overwrites_input_iff (BC := Fixture.rev_cipher)
           Fixture.w_key16
           (snd (decrypt_file (H := Fixture.rev_cipher) "notes.txt" Fixture.key16 Fixture.w_key16))
           "notes.txt" "notes.txt" Fixture.key16).
  reflexivity.
Defined.

(** X10. The path a successful [decrypt_file] writes to contains no
    [.enc]: decrypting never writes to a file named by [encrypt_file], and
    applying the renaming once more changes nothing. *)
Theorem decrypt_output_has_no_enc `{BC : AES.BlockCipher}
    (w w' : world) (filepath out : string) (K : bytes) :
  decrypt_file filepath K w = (Ok out, w') →
  (∀ a b, out ≠ a +:+ ".enc" +:+ b) ∧
  (∀ stem, out ≠ stem +:+ ".enc") ∧
  str_replace out ".enc" ".dec" = out.
Proof.
  intros Hdec. rewrite (decrypt_file_path _ _ _ _ _ Hdec).
  assert (∀ a b, str_replace filepath ".enc" ".dec" ≠ a +:+ ".enc" +:+ b) as Hclean
    by (intros a b; apply str_replace_enc_clean).
  split; [done|]. split.
  - intros stem E. apply (Hclean stem ""). rewrite E.
    clear. induction stem as [|c stem IH]; [done|].
    rewrite !append_String. by f_equal.
  - by apply str_replace_enc_absent.
Qed.

Lemma decrypt_output_has_no_enc_witness :
  (∀ a b, "garbled.dec" ≠ a +:+ ".enc" +:+ b) ∧
  (∀ stem, "garbled.dec" ≠ stem +:+ ".enc") ∧
  str_replace "garbled.dec" ".enc" ".dec" = "garbled.dec".
Proof.
  apply (decrypt_output_has_no_enc (BC := Fixture.rev_cipher)
           Fixture.w_garbled
           (snd (decrypt_file (H := Fixture.rev_cipher) "garbled.enc" Fixture.key32 Fixture.w_garbled))
           "garbled.enc" "garbled.dec" Fixture.key32).
  reflexivity.
Defined.

(** ** Round trips *)

(** X11. The envelope that [encrypt_file] has written for a plaintext [P]
    decrypts to [P] under the same key wherever it is stored afterwards:
    under another name, in another state of the file system, and for keys
    of 16 and 24 bytes as well as 32. Provided the output file can be
    opened, [decrypt_file] writes [P] there and changes no other file. *)
Theorem envelope_decrypts_anywhere `{BC : AES.BlockCipher}
    (w w1 w2 : world) (filepath out path2 : string) (K P envelope : bytes) :
  encrypt_file filepath K w = (Ok out, w1) →
  fs w !! filepath = Some P →
  fs w1 !! out = Some envelope →
  fs w2 !! path2 = Some envelope →
  open_for_writing w2 (str_replace path2 ".enc" ".dec") = None →
  decrypt_file path2 K w2 =
    (Ok (str_replace path2 ".enc" ".dec"),
     set_fs (insert (str_replace path2 ".enc" ".dec") P)
       (add_block_calls (S (length P `div` 16)) w2)).
Proof.
  intros Henc HP Henv Hcopy Ho.
  destruct (encrypt_file_cases filepath K w)
    as [[_ Hc]|[(d & _ & _ & Hc)|(d & padded & Hd & Hk & Hpad & Hc)]];
    [rewrite Hc in Henc; discriminate Henc.. |].
  assert (d = P) as -> by congruence.
  pose proof (fresh_iv_length w) as Hiv.
  destruct (envelope_decrypts K (fresh_iv w) P padded Hk Hiv Hpad) as (Hlen & _ & Hun).
  remember (fresh_iv w ++ AES.cbc_encrypt (S (length P `div` 16)) K (fresh_iv w) padded)
    as env eqn:Henv0.
  remember (add_block_calls (S (length P `div` 16))
              (set_cursor (cursor w + AES.block_size) w)) as w0 eqn:Hw0.
  rewrite Hc in Henc. injection Henc as <- <-.
  rewrite lookup_written in Henv. injection Henv as <-.
  destruct (decrypt_file_some_blocks path2 K env (length P `div` 16) w2 Hcopy Hk Hlen Ho)
    as (plain & Hplain & Hdec).
  rewrite Hun in Hplain. by injection Hplain as <-.
Qed.

Lemma envelope_decrypts_anywhere_witness :
  let w2 := mkWorld {[ "vault/copy.bin" :=
                         Fixture.key16 ++ rev (AES.xor_block
                           [x68; x65; x6c; x6c; x6f; x0b; x0b; x0b; x0b; x0b; x0b;
                            x0b; x0b; x0b; x0b; x0b] Fixture.key16) ]}
              ∅ Fixture.tape 0 0 [] in
  decrypt_file (H := Fixture.rev_cipher) "vault/copy.bin" Fixture.key16 w2
  = (Ok "vault/copy.bin",
     set_fs (insert "vault/copy.bin" Fixture.hello) (add_block_calls 1 w2)).
Proof.
  intros w2.
  apply (envelope_decrypts_anywhere (BC := Fixture.rev_cipher)
           Fixture.w_hello
           (snd (encrypt_file (H := Fixture.rev_cipher) "hello.txt" Fixture.key16 Fixture.w_hello))
           w2 "hello.txt" "hello.txt.enc" "vault/copy.bin" Fixture.key16 Fixture.hello
           (Fixture.key16 ++ rev (AES.xor_block
              [x68; x65; x6c; x6c; x6f; x0b; x0b; x0b; x0b; x0b; x0b;
               x0b; x0b; x0b; x0b; x0b] Fixture.key16)));
    reflexivity.
Defined.

(** ** The actions, end to end *)

Section ActionCases.
Import AES.
Context `{BlockCipher}.

Lemma truthy_append (s t : string) : truthy s = true → truthy (s +:+ t) = true.
Proof. by destruct s. Qed.

Lemma fresh_key_ok (w : world) : key_ok (fresh_key w) = true.
Proof. apply key_ok_length. right. right. apply fresh_key_length. Qed.

(** The encrypt action on a file that exists once the key is stored. *)
Lemma select_file_encrypt_Ok (file_path : string) (data : bytes) (w : world) :
  truthy file_path = true → fs (key_stored w) !! file_path = Some data →
  ∃ padded,
    pad data = Ok padded ∧
    select_file_encrypt file_path w =
      (Ok tt,
       add_shown (encrypted_message (file_path +:+ ".enc"))
         (set_fs (insert (file_path +:+ ".enc")
                    (fresh_iv (key_stored w)
                       ++ cbc_encrypt (S (length data `div` 16)) (fresh_key w)
                            (fresh_iv (key_stored w)) padded))
            (add_block_calls (S (length data `div` 16))
               (set_cursor (cursor (key_stored w) + block_size) (key_stored w))))).
Proof.
  intros Ht Hf. rewrite (select_file_encrypt_unfold _ _ Ht).
  destruct (encrypt_file_cases file_path (fresh_key w) (key_stored w))
    as [[Hn _]|[(d & _ & Hk & _)|(d & padded & Hd & _ & Hpad & Hc)]].
  - congruence.
  - rewrite fresh_key_ok in Hk. discriminate Hk.
  - assert (d = data) as -> by congruence.
    exists padded. split; [done|]. by rewrite Hc.
Qed.

(** [decrypt_file] shows nothing and draws nothing, however it ends. *)
Lemma decrypt_file_quiet (path : string) (k : bytes) (w w' : world)
    (r : result string) :
  decrypt_file path k w = (r, w') → shown w' = shown w ∧ cursor w' = cursor w.
Proof.
  intros Hdec.
  destruct (decrypt_file_all_cases path k w)
    as [[_ Hc]|[(env & _ & _ & Hc)|[(env & _ & _ & _ & Hc)
       |[(env & n & plain & _ & _ & _ & _ & _ & Hc)
        |(env & n & e & _ & _ & _ & _ & Hc)]]]];
    rewrite Hc in Hdec; by injection Hdec as _ <-.
Qed.

End ActionCases.

(** X12. The two actions compose: after the encrypt action on an existing
    file other than [key.bin], the decrypt action on the file it has
    written, provided the decrypted file can be opened for writing, ends
    well and writes the original contents to it, changing no other file,
    and each action has shown its success message. *)
Theorem encrypt_then_decrypt_actions `{BC : AES.BlockCipher}
    (w : world) (file_path : string) (P : bytes) :
  truthy file_path = true → file_path ≠ "key.bin" →
  fs w !! file_path = Some P →
  open_for_writing w (str_replace file_path ".enc" ".dec" +:+ ".dec") = None →
  ∃ w1 w2 out,
    select_file_encrypt file_path w = (Ok tt, w1) ∧
    select_file_decrypt (file_path +:+ ".enc") w1 = (Ok tt, w2) ∧
    out = str_replace file_path ".enc" ".dec" +:+ ".dec" ∧
    fs w2 = <[out := P]> (fs w1) ∧
    fs w2 !! out = Some P ∧
    shown w2 = shown w ++ [encrypted_message (file_path +:+ ".enc");
                           decrypted_message out].
Proof.
  intros Ht Hne HP Hopen.
  assert (fs (key_stored w) !! file_path = Some P) as HP'
    by (unfold key_stored; simpl; by rewrite lookup_insert_ne).
  destruct (select_file_encrypt_Ok file_path P w Ht HP') as (padded & Hpad & Henc).
  pose proof (fresh_iv_length (key_stored w)) as Hiv.
  destruct (envelope_decrypts (fresh_key w) (fresh_iv (key_stored w)) P padded
              (fresh_key_ok w) Hiv Hpad) as (Hlen & _ & Hun).
  remember (fresh_iv (key_stored w)
              ++ AES.cbc_encrypt (S (length P `div` 16)) (fresh_key w)
                   (fresh_iv (key_stored w)) padded) as env eqn:Henv.
  remember (add_block_calls (S (length P `div` 16))
              (set_cursor (cursor (key_stored w) + AES.block_size) (key_stored w)))
    as w0 eqn:Hw0.
  assert (shown w0 = shown w) as Hshown0 by (by subst w0).
  set (w1 := add_shown (encrypted_message (file_path +:+ ".enc"))
               (set_fs (insert (file_path +:+ ".enc") env) w0)) in *.
  assert (fs w1 !! "key.bin" = Some (fresh_key w)) as Hkey
    by (by eapply select_file_encrypt_stores_key).
  assert (fs w1 !! (file_path +:+ ".enc") = Some env) as Henv1
    by (apply lookup_insert_eq).
  assert (open_for_writing w1 (str_replace (file_path +:+ ".enc") ".enc" ".dec") = None)
    as Hopen1.
  { rewrite str_replace_enc_suffix.
    rewrite (open_for_writing_same w1
               (set_fs (insert (file_path +:+ ".enc") env)
                  (set_fs (insert "key.bin" (fresh_key w)) w)))
      by (by subst w0).
    by do 2 apply open_for_writing_insert. }
  destruct (decrypt_file_some_blocks (file_path +:+ ".enc") (fresh_key w) env
              (length P `div` 16) w1 Henv1 (fresh_key_ok w) Hlen Hopen1)
    as (plain & Hplain & Hdec).
  rewrite Hun in Hplain. injection Hplain as <-.
  rewrite str_replace_enc_suffix in Hdec.
  eexists w1, _, _. split; [exact Henc|]. split.
  - rewrite (select_file_decrypt_with_key _ _ _ (truthy_append _ ".enc" Ht) Hkey).
    rewrite Hdec. reflexivity.
  - split; [reflexivity|]. split; [reflexivity|]. split; [apply lookup_insert_eq|].
    cbn [shown add_shown set_fs add_block_calls w1]. rewrite Hshown0.
    by rewrite <- app_assoc.
Qed.

Lemma encrypt_then_decrypt_actions_witness :
  ∃ w1 w2 out,
    select_file_encrypt (H := Fixture.rev_cipher) "hello.txt" Fixture.w_hello = (Ok tt, w1) ∧
    select_file_decrypt (H := Fixture.rev_cipher) ("hello.txt" +:+ ".enc") w1 = (Ok tt, w2) ∧
    out = str_replace "hello.txt" ".enc" ".dec" +:+ ".dec" ∧
    fs w2 = <[out := Fixture.hello]> (fs w1) ∧
    fs w2 !! out = Some Fixture.hello ∧
    shown w2 = shown Fixture.w_hello
                 ++ [encrypted_message ("hello.txt" +:+ ".enc"); decrypted_message out].
Proof.
  apply (encrypt_then_decrypt_actions (BC := Fixture.rev_cipher)
           Fixture.w_hello "hello.txt" Fixture.hello);
    [reflexivity | discriminate | reflexivity | reflexivity].
Defined.

(** X13. On a selected file that exists the encrypt action always ends
    well (its key always has 32 bytes): it shows one success message, has
    drawn 48 random bytes, the 32 of the key and after them the 16 of the
    IV that opens the envelope, and has changed no file but [key.bin] and
    the envelope. *)
Theorem encrypt_action_on_existing_file `{BC : AES.BlockCipher}
    (w : world) (file_path : string) :
  truthy file_path = true → is_Some (fs w !! file_path) →
  ∃ w' envelope,
    select_file_encrypt file_path w = (Ok tt, w') ∧
    shown w' = shown w ++ [encrypted_message (file_path +:+ ".enc")] ∧
    cursor w' = cursor w + 48 ∧
    fs w' !! "key.bin" = Some (map (entropy w) (seq (cursor w) 32)) ∧
    fs w' !! (file_path +:+ ".enc") = Some envelope ∧
    take 16 envelope = map (entropy w) (seq (cursor w + 32) 16) ∧
    (∀ other, other ≠ "key.bin" → other ≠ file_path +:+ ".enc" →
       fs w' !! other = fs w !! other).
Proof.
  intros Ht [data Hdata].
  assert (∃ d, fs (key_stored w) !! file_path = Some d) as [d Hd].
  { unfold key_stored. simpl.
    destruct (decide (file_path = "key.bin")) as [->|Hne].
    - rewrite lookup_insert_eq. by eexists.
    - rewrite lookup_insert_ne by done. by eexists. }
  destruct (select_file_encrypt_Ok file_path d w Ht Hd) as (padded & Hpad & Henc).
  eexists _, _. split; [exact Henc|].
  pose proof (fresh_iv_length (key_stored w)) as Hiv.
  cbn [shown cursor fs add_shown set_fs add_block_calls set_cursor key_stored].
  split; [done|]. split; [unfold AES.block_size; lia|].
  split.
  { rewrite lookup_insert_ne by (intros E; by apply (enc_path_not_key_file file_path)).
    apply lookup_insert_eq. }
  split; [apply lookup_insert_eq|]. split.
  - by rewrite take_app_length'.
  - intros other Hk He. by rewrite !lookup_insert_ne.
Qed.

Lemma encrypt_action_on_existing_file_witness :
  ∃ w' envelope,
    select_file_encrypt (H := Fixture.rev_cipher) "hello.txt" Fixture.w_hello = (Ok tt, w') ∧
    shown w' = shown Fixture.w_hello ++ [encrypted_message ("hello.txt" +:+ ".enc")] ∧
    cursor w' = cursor Fixture.w_hello + 48 ∧
    fs w' !! "key.bin"
      = Some (map (entropy Fixture.w_hello) (seq (cursor Fixture.w_hello) 32)) ∧
    fs w' !! ("hello.txt" +:+ ".enc") = Some envelope ∧
    take 16 envelope
      = map (entropy Fixture.w_hello) (seq (cursor Fixture.w_hello + 32) 16) ∧
    (∀ other, other ≠ "key.bin" → other ≠ "hello.txt" +:+ ".enc" →
       fs w' !! other = fs Fixture.w_hello !! other).
Proof.
  apply (encrypt_action_on_existing_file (BC := Fixture.rev_cipher)
           Fixture.w_hello "hello.txt"); [reflexivity | by eexists].
Defined.

(** X14. Selecting [key.bin] itself for encryption never fails, even when
    no [key.bin] exists: the new key is stored first, so that what is
    encrypted is the new key and not what [key.bin] held before. *)
Theorem encrypting_the_key_file `{BC : AES.BlockCipher} (w : world) :
  ∃ w' envelope,
    select_file_encrypt "key.bin" w = (Ok tt, w') ∧
    fs w' !! "key.bin" = Some (fresh_key w) ∧
    fs w' !! "key.bin.enc" = Some envelope ∧
    unpad (decrypted_buffer (fresh_key w) envelope) = Ok (fresh_key w).
Proof.
  assert (fs (key_stored w) !! "key.bin" = Some (fresh_key w)) as Hd
    by apply lookup_insert_eq.
  destruct (select_file_encrypt_Ok "key.bin" (fresh_key w) w eq_refl Hd)
    as (padded & Hpad & Henc).
  pose proof (fresh_iv_length (key_stored w)) as Hiv.
  destruct (envelope_decrypts (fresh_key w) (fresh_iv (key_stored w)) (fresh_key w)
              padded (fresh_key_ok w) Hiv Hpad) as (_ & _ & Hun).
  eexists _, _. split; [exact Henc|].
  split; [exact (select_file_encrypt_stores_key "key.bin" w _ _ eq_refl Henc)|].
  split; [|exact Hun].
  change "key.bin.enc" with ("key.bin" +:+ ".enc"). apply lookup_insert_eq.
Qed.

(** X15. Each action shows at most one message box: exactly one when it
    returns on a selected file, none when it ends in an exception; when the
    file dialog was cancelled the action changes nothing at all. *)
Theorem one_message_per_action `{BC : AES.BlockCipher}
    (w w' : world) (file_path : string) (r : result unit) :
  select_file_encrypt file_path w = (r, w')
  ∨ select_file_decrypt file_path w = (r, w') →
  match r with
  | Ok _ =>
      if truthy file_path then ∃ m, shown w' = shown w ++ [m] else w' = w
  | Raise _ => shown w' = shown w
  end.
Proof.
  destruct (truthy file_path) eqn:Ht.
  - intros [Henc|Hdec].
    + rewrite (select_file_encrypt_unfold _ _ Ht) in Henc.
      destruct (encrypt_file file_path (fresh_key w) (key_stored w))
        as [r' w1] eqn:Hfile.
      destruct (encrypt_file_cases file_path (fresh_key w) (key_stored w))
        as [[_ Hc]|[(d & _ & _ & Hc)|(d & padded & _ & _ & _ & Hc)]];
        rewrite Hc in Hfile; injection Hfile as <- <-;
        injection Henc as <- <-; by eauto.
    + destruct (fs w !! "key.bin") as [k|] eqn:Hk.
      * rewrite (select_file_decrypt_with_key _ k _ Ht Hk) in Hdec.
        destruct (decrypt_file file_path k w) as [r' w1] eqn:Hfile.
        destruct (decrypt_file_quiet _ _ _ _ _ Hfile) as [Hs _].
        destruct r' as [out|[]]; injection Hdec as <- <-;
          cbn [shown add_shown]; rewrite ?Hs; by eauto.
      * rewrite (select_file_decrypt_no_key _ _ Ht Hk) in Hdec.
        injection Hdec as <- <-. by eauto.
  - unfold select_file_encrypt, select_file_decrypt. rewrite Ht.
    by intros [[= <- <-]|[= <- <-]].
Qed.

Lemma one_message_per_action_witness :
  shown (snd (select_file_decrypt (H := Fixture.rev_cipher) "empty.enc" Fixture.w_bare_iv))
  = shown Fixture.w_bare_iv.
Proof.
  apply (one_message_per_action (BC := Fixture.rev_cipher)
           Fixture.w_bare_iv
           (snd (select_file_decrypt (H := Fixture.rev_cipher) "empty.enc" Fixture.w_bare_iv))
           "empty.enc" (Raise IndexError)).
  right. reflexivity.
Defined.
